(** * Search-R1: [search_r1/llm_agent/tensor_helper.py]

    A shallow embedding of [TensorHelper], the batch-tensor alignment
    utilities of the agent loop, together with the properties its
    specification states about it.

    Integer tensors are int64 tensors: a cell is a [Z] and every arithmetic
    result is wrapped back into the signed 64-bit range.  A tensor of shape
    (b, L) is a record holding its column count and its list of rows, so that
    a tensor with no rows still knows its sequence length.  Python exceptions
    are the [Raise] constructor of [result]. *)

From stdpp Require Import base numbers list sorting gmap strings.
From Stdlib Require Import ZArith Lia.

(** ** Python: exceptions and slices *)
Module Py.

Inductive exn : Type :=
  | KeyError (key : string)
  | IndexError
  | AssertionError
  | RuntimeError.

Inductive result (A : Type) : Type :=
  | Ok (a : A)
  | Raise (e : exn).
Arguments Ok {A} a.
Arguments Raise {A} e.

Definition bind {A B} (m : result A) (k : A → result B) : result B :=
  match m with
  | Ok a => k a
  | Raise e => Raise e
  end.

(** [slice.indices]: a bound of a slice with step 1 on a sequence of
    length [n]; a negative bound counts from the end, and the outcome is
    clamped into [0, n]. *)
Definition adjust_index (n : nat) (z : Z) : nat :=
  if (z <? 0)%Z then Z.to_nat (Z.max 0 (z + Z.of_nat n))
  else Z.to_nat (Z.min z (Z.of_nat n)).

(** [l[z:]] *)
Definition slice_from {A} (z : Z) (l : list A) : list A :=
  drop (adjust_index (length l) z) l.

(** [l[:z]] *)
Definition slice_to {A} (z : Z) (l : list A) : list A :=
  take (adjust_index (length l) z) l.

End Py.

(** ** Torch: the tensor operations the helper calls *)
Module Torch.
Import Py.

(** Signed 64-bit wrap-around. *)
Definition wrap64 (z : Z) : Z := ((z + 2 ^ 63) `mod` 2 ^ 64 - 2 ^ 63)%Z.

Record tensor (A : Type) : Type := Tensor {
  ncols : nat;
  rows : list (list A)
}.
Arguments Tensor {A} ncols rows.
Arguments ncols {A} t.
Arguments rows {A} t.

Definition nrows {A} (t : tensor A) : nat := length (rows t).

(** Rectangular: every row has [ncols] cells. *)
Definition wf {A} (t : tensor A) : Prop :=
  Forall (λ r, length r = ncols t) (rows t).

Definition map_rows {A B} (f : list A → list B) (n : nat) (t : tensor A)
  : tensor B :=
  Tensor n (f <$> rows t).

Definition map_cells {A B} (f : A → B) (t : tensor A) : tensor B :=
  Tensor (ncols t) ((λ r : list A, f <$> r) <$> rows t).

(** [torch.cumsum(t, dim=1)] *)
Fixpoint cumsum_from (acc : Z) (l : list Z) : list Z :=
  match l with
  | [] => []
  | x :: l' => let acc' := wrap64 (acc + x)%Z in acc' :: cumsum_from acc' l'
  end.

Definition cumsum_dim1 (t : tensor Z) : tensor Z :=
  map_rows (cumsum_from 0%Z) (ncols t) t.

(** [t - c] for a Python integer [c] *)
Definition sub_scalar (t : tensor Z) (c : Z) : tensor Z :=
  map_cells (λ x, wrap64 (x - c)%Z) t.

(** [a * b] for two tensors of one shape *)
Definition mul (a b : tensor Z) : tensor Z :=
  Tensor (ncols a)
    (zip_with (zip_with (λ x y, wrap64 (x * y)%Z)) (rows a) (rows b)).

(** [t.sum(dim=1)] *)
Definition sum_row (l : list Z) : Z :=
  foldl (λ acc x, wrap64 (acc + x)%Z) 0%Z l.

Definition sum_dim1 (t : tensor Z) : list Z := sum_row <$> rows t.

(** [v.max()] of a 1-D tensor: a reduction over no element raises. *)
Definition max_all (v : list Z) : result Z :=
  match v with
  | [] => Raise RuntimeError
  | x :: v' => Ok (foldl Z.max x v')
  end.

(** [-e] on an int64 scalar *)
Definition neg (e : Z) : Z := wrap64 (- e)%Z.

(** [t[:, z:]] and [t[:, :z]] *)
Definition slice_cols_from {A} (z : Z) (t : tensor A) : tensor A :=
  Tensor (ncols t - adjust_index (ncols t) z) (slice_from z <$> rows t).

Definition slice_cols_to {A} (z : Z) (t : tensor A) : tensor A :=
  Tensor (adjust_index (ncols t) z) (slice_to z <$> rows t).

(** The tensor of [n] rows and [m] columns whose cells all hold [v]. *)
Definition filled {A} (n m : nat) (v : A) : tensor A :=
  Tensor m (replicate n (replicate m v)).

(** [torch.full((n, m), v, dtype=torch.int64)]: a fill value that is not an
    int64 raises, whatever the shape. *)
Definition full (n m : nat) (v : Z) : result (tensor Z) :=
  if decide (- 2 ^ 63 ≤ v < 2 ^ 63)%Z then Ok (filled n m v)
  else Raise RuntimeError.

(** [keys.argsort(stable=True)] on one row: the column indices, ordered by
    ascending key, equal keys keeping their left-to-right order. *)
Fixpoint stable_insert (p : Z * nat) (l : list (Z * nat)) : list (Z * nat) :=
  match l with
  | [] => [p]
  | q :: l' => if (p.1 <=? q.1)%Z then p :: l else q :: stable_insert p l'
  end.

Definition argsort_row (keys : list Z) : list nat :=
  (foldr stable_insert [] (zip keys (seq 0 (length keys)))).*2.

Definition argsort_dim1 (t : tensor Z) : tensor nat :=
  map_rows argsort_row (ncols t) t.

(** [t.gather(1, idx)]: [out[i][j] = t[i][idx[i][j]]]; an index outside the
    row, or an index tensor with more rows than [t], raises. *)
Definition gather_row {A} (row : list A) (idx : list nat) : option (list A) :=
  mapM (λ j, row !! j) idx.

Fixpoint gather_rows {A} (rs : list (list A)) (idxs : list (list nat))
  : option (list (list A)) :=
  match idxs, rs with
  | [], _ => Some []
  | idx :: idxs', row :: rs' =>
      out ← gather_row row idx;
      outs ← gather_rows rs' idxs';
      Some (out :: outs)
  | _ :: _, [] => None
  end.

Definition gather_dim1 {A} (t : tensor A) (idx : tensor nat)
  : result (tensor A) :=
  match gather_rows (rows t) (rows idx) with
  | Some rs => Ok (Tensor (ncols idx) rs)
  | None => Raise RuntimeError
  end.

(** [torch.cat(ts, dim=1)] for 2-D tensors: the list must not be empty and
    the row counts must agree. *)
Definition hcat {A} (a b : tensor A) : tensor A :=
  Tensor (ncols a + ncols b) (zip_with app (rows a) (rows b)).

Definition cat_dim1 {A} (ts : list (tensor A)) : result (tensor A) :=
  match ts with
  | [] => Raise RuntimeError
  | t0 :: ts' =>
      foldl (λ acc t, bind acc (λ a,
               if decide (nrows a = nrows t) then Ok (hcat a t)
               else Raise RuntimeError))
            (Ok t0) ts'
  end.

(** [mask.sum()] of a boolean vector *)
Definition count_true (mask : list bool) : nat :=
  length (filter (λ b, b = true) mask).

(** [dst[mask] = src]: the rows of [dst] at the true positions of the mask
    are replaced, in scan order, by the successive rows of [src]; a row
    count of [src] other than the number of true positions raises. *)
Fixpoint masked_assign {A} (dst : list (list A)) (mask : list bool)
    (src : list (list A)) : result (list (list A)) :=
  match dst, mask with
  | d :: dst', true :: mask' =>
      match src with
      | s :: src' => bind (masked_assign dst' mask' src') (λ r, Ok (s :: r))
      | [] => Raise RuntimeError
      end
  | d :: dst', false :: mask' =>
      bind (masked_assign dst' mask' src) (λ r, Ok (d :: r))
  | _, _ =>
      match src with
      | [] => Ok dst
      | _ :: _ => Raise RuntimeError
      end
  end.

(** [t != c], [t == c] and [mask.to(torch.int64)] *)
Definition ne_scalar (t : tensor Z) (c : Z) : tensor bool :=
  map_cells (λ x, bool_decide (x ≠ c)) t.

Definition eq_scalar (t : tensor Z) (c : Z) : tensor bool :=
  map_cells (λ x, bool_decide (x = c)) t.

Definition to_int64 (t : tensor bool) : tensor Z :=
  map_cells (λ b : bool, if b then 1%Z else 0%Z) t.

(** Tensors of shape (b, L, *D).  The cell at a row and a column is the
    sub-tensor of shape D, held as its [cell_size D] integers in row-major
    order. *)
Record ntensor : Type := NTensor {
  rest : list nat;
  body : tensor (list Z)
}.

Definition cell_size (D : list nat) : nat := foldr Nat.mul 1 D.

(** [t.new_full((n, L, *D), v)] for an int64 tensor [t]: a fill value that
    is not an int64 raises, whatever the shape. *)
Definition new_full (n L : nat) (D : list nat) (v : Z) : result ntensor :=
  if decide (- 2 ^ 63 ≤ v < 2 ^ 63)%Z
  then Ok (NTensor D (filled n L (replicate (cell_size D) v)))
  else Raise RuntimeError.

(** [batch[r0:r0 + b, c0:c0 + L, ...] = t].  The selected block has to have
    the shape of [t]; broadcasting of a differently shaped [t] is not
    modelled and raises. *)
Definition splice {A} (c0 L : nat) (dst src : list A) : list A :=
  take c0 dst ++ src ++ drop (c0 + L) dst.

Definition assign_block (batch : ntensor) (r0 b c0 L : nat) (t : ntensor)
  : result ntensor :=
  let sel := take b (drop r0 (rows (body batch))) in
  if decide (rest t = rest batch ∧ length sel = nrows (body t) ∧
             Nat.min (c0 + L) (ncols (body batch)) - c0 = ncols (body t)) then
    Ok (NTensor (rest batch)
          (Tensor (ncols (body batch))
             (take r0 (rows (body batch)) ++
              zip_with (splice c0 L) sel (rows (body t)) ++
              drop (r0 + b) (rows (body batch)))))
  else Raise RuntimeError.

End Torch.

(** ** The helper class *)
Module TensorHelper.
Import Py Torch.

Record TensorConfig : Type := {
  pad_token_id : Z;
  max_prompt_length : Z;
  max_obs_length : Z;
  max_start_length : Z
}.

(** *** Dictionaries live in a store

    A Python dict is a mutable object: [heap] holds the dicts, a [ref] names
    one.  A computation threads the store and may raise; the store survives
    the exception. *)
Abbreviation pydict := (gmap string (tensor Z)).
Abbreviation heap := (list pydict).
Abbreviation ref := nat.
Definition St (A : Type) : Type := heap → heap * result A.

Definition ret {A} (a : A) : St A := λ h, (h, Ok a).

Definition st_bind {A B} (m : St A) (k : A → St B) : St B :=
  λ h, match m h with
       | (h', Ok a) => k a h'
       | (h', Raise e) => (h', Raise e)
       end.

Definition lift {A} (r : result A) : St A := λ h, (h, r).

Notation "'let*' x ':=' m 'in' k" := (st_bind m (λ x, k))
  (at level 10, x name, m at level 100, k at level 200).

(** [d[key]]; a reference to no dict reads as the empty dict. *)
Definition dict_getitem (d : ref) (key : string) : St (tensor Z) :=
  λ h, match (h !! d) ≫= (λ m : pydict, m !! key) with
       | Some t => (h, Ok t)
       | None => (h, Raise (KeyError key))
       end.

(** [d.copy()]: a new dict with the same entries. *)
Definition dict_copy (d : ref) : St ref :=
  λ h, (h ++ [default ∅ (h !! d)], Ok (length h)).

(** [d[key] = t] *)
Definition dict_setitem (d : ref) (key : string) (t : tensor Z) : St unit :=
  λ h, (alter (λ m : pydict, <[key := t]> m) d h, Ok tt).

Fixpoint for_each {A} (l : list A) (body : A → St unit) : St unit :=
  match l with
  | [] => ret tt
  | x :: l' => let* _ := body x in for_each l' body
  end.

Section methods.
Variable config : TensorConfig.

Definition cut_to_effective_len (tensor_dict : ref) (keys : list string)
    (cut_left : bool) : St ref :=
  let* mask := dict_getitem tensor_dict "attention_mask" in
  let* effective_len := lift (max_all (sum_dim1 mask)) in
  let* result := dict_copy tensor_dict in
  let* _ := for_each keys (λ key,
    if cut_left then
      let* t := dict_getitem tensor_dict key in
      dict_setitem result key (slice_cols_from (neg effective_len) t)
    else
      let* t := dict_getitem tensor_dict key in
      dict_setitem result key (slice_cols_to effective_len t)) in
  ret result.

Definition convert_pad_structure (t : tensor Z) (pad_to_left : bool)
  : Py.result (tensor Z * tensor nat) :=
  let mask := if pad_to_left then ne_scalar t (pad_token_id config)
              else eq_scalar t (pad_token_id config) in
  let sorted_indices := argsort_dim1 (to_int64 mask) in
  bind (gather_dim1 t sorted_indices) (λ g, Ok (g, sorted_indices)).

Definition create_attention_mask (input_ids : tensor Z) : tensor Z :=
  map_cells (λ b : bool, if b then 1%Z else 0%Z)
    (ne_scalar input_ids (pad_token_id config)).

Definition create_position_ids (attention_mask : tensor Z) : tensor Z :=
  mul (sub_scalar (cumsum_dim1 attention_mask) 1%Z) attention_mask.

Definition concatenate_with_padding (tensors : list (tensor Z))
    (pad_to_left : bool) : Py.result (tensor Z) :=
  bind (cat_dim1 tensors) (λ concatenated,
  bind (convert_pad_structure concatenated pad_to_left) (λ p, Ok p.1)).

(** The loop of [_example_level_pad] over [enumerate(active_mask)], with
    its cursor [s] into [responses_str]. *)
Fixpoint fill_strs (items : list (nat * bool)) (s : nat)
    (padded_responses_str responses_str : list string)
  : Py.result (list string) :=
  match items with
  | [] => Ok padded_responses_str
  | (i, is_active) :: items' =>
      if is_active then
        match responses_str !! s with
        | Some x =>
            fill_strs items' (S s) (<[i := x]> padded_responses_str)
              responses_str
        | None => Raise IndexError
        end
      else fill_strs items' s padded_responses_str responses_str
  end.

Definition enumerate {A} (l : list A) : list (nat * A) :=
  zip (seq 0 (length l)) l.

Definition _example_level_pad (responses : tensor Z)
    (responses_str : list string) (active_mask : list bool)
  : Py.result (tensor Z * list string) :=
  if decide (count_true active_mask = nrows responses) then
    let batch_size := length active_mask in
    let seq_len := ncols responses in
    bind (full batch_size seq_len (pad_token_id config))
      (λ padded_responses,
    bind (masked_assign (rows padded_responses) active_mask (rows responses))
      (λ rs,
    let padded_responses := Tensor seq_len rs in
    let padded_responses_str := replicate batch_size EmptyString in
    bind (fill_strs (enumerate active_mask) 0 padded_responses_str
            responses_str) (λ padded_responses_str,
    Ok (padded_responses, padded_responses_str))))
  else Raise AssertionError.

(** The copy loop of [_turn_level_pad_and_concatenate] over
    [zip(bs, tensors)], with its row cursor [b_start]. *)
Fixpoint copy_blocks (items : list (nat * ntensor)) (L_max : nat)
    (pad_to_left : bool) (batch : ntensor) (b_start : nat)
  : Py.result ntensor :=
  match items with
  | [] => Ok batch
  | (b, t) :: items' =>
      let L := ncols (body t) in
      let start := if pad_to_left then L_max - L else 0 in
      bind (assign_block batch b_start b start L t) (λ batch,
      copy_blocks items' L_max pad_to_left batch (b_start + b))
  end.

Definition _turn_level_pad_and_concatenate (tensors : list ntensor)
    (pad_to_left : bool) : Py.result ntensor :=
  match tensors with
  | [] => Raise IndexError
  | t0 :: _ =>
      let D := rest t0 in
      let bs := (λ t, nrows (body t)) <$> tensors in
      let lengths := (λ t, ncols (body t)) <$> tensors in
      let L_max := max_list lengths in
      let n := sum_list bs in
      bind (new_full n L_max D (pad_token_id config)) (λ batch,
      copy_blocks (zip bs tensors) L_max pad_to_left batch 0)
  end.

End methods.
End TensorHelper.

Import Py Torch TensorHelper.

(** ** Specification-side vocabulary *)

(** Number of cells equal to 1 strictly left of column [j]. *)
Definition ones_before (j : nat) (row : list Z) : nat :=
  length (filter (λ x, x = 1%Z) (take j row)).

(** The row of position ids, as the code computes it cell by cell. *)
Definition position_row (acc : Z) (row : list Z) : list Z :=
  zip_with (λ x y, wrap64 (x * y)%Z)
    ((λ c, wrap64 (c - 1)%Z) <$> cumsum_from acc row) row.

(** The class that goes first: pads when padding to the left, real tokens
    when padding to the right. *)
Definition goes_first (pad : Z) (pad_to_left : bool) (x : Z) : bool :=
  if pad_to_left then bool_decide (x = pad) else bool_decide (x ≠ pad).

Definition first_at (pad : Z) (pad_to_left : bool) (row : list Z) (j : nat)
  : bool :=
  from_option (goes_first pad pad_to_left) false (row !! j).

(** A row regrouped by class, each class in its original order, and the
    column indices regrouped the same way. *)
Definition stable_group (pad : Z) (pad_to_left : bool) (row : list Z)
  : list Z :=
  filter (λ x, goes_first pad pad_to_left x) row ++
  filter (λ x, ¬ goes_first pad pad_to_left x) row.

Definition stable_index (pad : Z) (pad_to_left : bool) (row : list Z)
  : list nat :=
  filter (λ j, first_at pad pad_to_left row j) (seq 0 (length row)) ++
  filter (λ j, ¬ first_at pad pad_to_left row j) (seq 0 (length row)).

(** Pad-left layout: the pads of a row form one block at its left end. *)
Definition pad_left_layout (pad : Z) (row : list Z) : Prop :=
  ∃ (k : nat) (xs : list Z),
    row = replicate k pad ++ xs ∧ Forall (λ x, x ≠ pad) xs.

(** Column-wise concatenation, in the words of the specification: row [i]
    of the result is the [i]-th rows of the tensors, appended in list order;
    with no tensor there is nothing to concatenate. *)
Definition column_append (ts : list (tensor Z)) : result (tensor Z) :=
  match ts with
  | [] => Raise RuntimeError
  | t0 :: _ =>
      Ok (Tensor (sum_list (ncols <$> ts))
            ((λ i, concat ((λ t, default [] (rows t !! i)) <$> ts))
               <$> seq 0 (nrows t0)))
  end.

(** Pad-side conversion, in the words of the specification: every row is
    regrouped, each class keeping its order. *)
Definition pad_side (pad : Z) (pad_to_left : bool) (t : tensor Z) : tensor Z :=
  Tensor (ncols t) (stable_group pad pad_to_left <$> rows t).

(** The sort key the code gives a cell. *)
Definition key_of (pad : Z) (pad_to_left : bool) (x : Z) : Z :=
  if (if pad_to_left then bool_decide (x ≠ pad) else bool_decide (x = pad))
  then 1%Z else 0%Z.

(** A cell of shape D filled with the pad token. *)
Definition pad_cell (D : list nat) (pad : Z) : list Z :=
  replicate (cell_size D) pad.

(** The column at which a block of length [L] starts in a row of length
    [L_max]. *)
Definition block_col (pad_to_left : bool) (L_max L : nat) : nat :=
  if pad_to_left then L_max - L else 0.

(** The output row at which the block of the [k]-th tensor starts. *)
Definition block_row (tensors : list ntensor) (k : nat) : nat :=
  sum_list ((λ t, nrows (body t)) <$> take k tensors).

(** The rows of one tensor, each padded to [L_max] cells. *)
Definition pad_block (D : list nat) (pad : Z) (pad_to_left : bool)
    (L_max : nat) (t : ntensor) : list (list (list Z)) :=
  (λ row,
     replicate (block_col pad_to_left L_max (ncols (body t))) (pad_cell D pad)
     ++ row ++
     replicate (L_max - (block_col pad_to_left L_max (ncols (body t))
                         + ncols (body t))) (pad_cell D pad))
  <$> rows (body t).

(** The slice one named array receives. *)
Definition cut (cut_left : bool) (effective_len : Z) (t : tensor Z)
  : tensor Z :=
  if cut_left then slice_cols_from (neg effective_len) t
  else slice_cols_to effective_len t.

(** The loop over [keys] on the dict alone: the entries read from
    [tensor_dict], the writes going to [result]. *)
Fixpoint cut_loop (tensor_dict : gmap string (tensor Z))
    (f : tensor Z → tensor Z) (keys : list string)
    (result : gmap string (tensor Z))
  : gmap string (tensor Z) * Py.result unit :=
  match keys with
  | [] => (result, Ok tt)
  | key :: keys' =>
      match tensor_dict !! key with
      | Some t => cut_loop tensor_dict f keys' (<[key := f t]> result)
      | None => (result, Raise (KeyError key))
      end
  end.

(** ** int64 arithmetic *)

Lemma wrap64_id z : (- 2 ^ 63 ≤ z < 2 ^ 63)%Z → wrap64 z = z.
Proof.
  intros Hz. unfold wrap64.
  rewrite Z.mod_small; lia.
Qed.

Lemma full_ok (n m : nat) (v : Z) :
  (- 2 ^ 63 ≤ v < 2 ^ 63)%Z → full n m v = Ok (filled n m v).
Proof. intros Hv. unfold full. by rewrite decide_True. Qed.

Lemma new_full_ok (n L : nat) (D : list nat) (v : Z) :
  (- 2 ^ 63 ≤ v < 2 ^ 63)%Z →
  new_full n L D v = Ok (NTensor D (filled n L (replicate (cell_size D) v))).
Proof. intros Hv. unfold new_full. by rewrite decide_True. Qed.

(** ** Position ids *)

Lemma length_cumsum_from acc l : length (cumsum_from acc l) = length l.
Proof. revert acc. induction l as [|x l IH]; intros acc; simpl; [done|]. by rewrite IH. Qed.

Lemma rows_create_position_ids (t : tensor Z) :
  rows (create_position_ids t) = position_row 0 <$> rows t.
Proof.
  unfold create_position_ids, mul, sub_scalar, cumsum_dim1, map_cells, map_rows.
  simpl. rewrite <- !list_fmap_compose, zip_with_fmap_l, zip_with_diag.
  reflexivity.
Qed.

Lemma length_position_row acc row : length (position_row acc row) = length row.
Proof.
  unfold position_row.
  rewrite length_zip_with, length_fmap, length_cumsum_from. lia.
Qed.

Lemma position_row_lookup (row : list Z) : ∀ (acc : Z) (j : nat) (x : Z),
  (0 ≤ acc)%Z →
  (acc + Z.of_nat (length row) < 2 ^ 63)%Z →
  Forall (λ x, x = 0%Z ∨ x = 1%Z) row →
  row !! j = Some x →
  position_row acc row !! j =
    Some (if decide (x = 0%Z) then 0%Z
          else (acc + Z.of_nat (ones_before j row))%Z).
Proof.
  induction row as [|y row IH]; intros acc j x Hacc Hlen Hbit Hj; [done|].
  apply Forall_cons in Hbit as [Hy Hbit].
  simpl in Hlen.
  assert (Hw : wrap64 (acc + y) = (acc + y)%Z) by (apply wrap64_id; lia).
  destruct j as [|j].
  - simpl in Hj. injection Hj as ->.
    unfold position_row. simpl. rewrite Hw. f_equal.
    destruct Hy as [-> | ->]; simpl.
    + rewrite Z.mul_0_r. by apply wrap64_id.
    + rewrite Z.mul_1_r, (wrap64_id (acc + 1 - 1)), wrap64_id by lia.
      unfold ones_before; simpl; lia.
  - simpl in Hj.
    change (position_row acc (y :: row) !! S j)
      with (position_row (wrap64 (acc + y)) row !! j).
    rewrite Hw, (IH (acc + y)%Z j x); [|lia|lia|done|done].
    destruct (decide (x = 0%Z)) as [|Hx]; [done|].
    f_equal. unfold ones_before.
    change (take (S j) (y :: row)) with (y :: take j row).
    rewrite filter_cons.
    destruct Hy as [-> | ->]; destruct (decide _); simpl; lia.
Qed.

(** C6.  For an attention mask with cells in {0,1}, [create_position_ids]
    returns an array of the same shape; a position whose mask cell is 0
    holds 0, and the position of the k-th 1 of its row (counted from 0,
    left to right) holds k, wherever the zeros lie. *)
Theorem create_position_ids_spec (attention_mask : tensor Z) :
  Forall (λ row, (Z.of_nat (length row) < 2 ^ 63)%Z ∧
                 Forall (λ x, x = 0%Z ∨ x = 1%Z) row) (rows attention_mask) →
  let out := create_position_ids attention_mask in
  ncols out = ncols attention_mask ∧
  nrows out = nrows attention_mask ∧
  ∀ r row, rows attention_mask !! r = Some row →
    ∃ orow, rows out !! r = Some orow ∧ length orow = length row ∧
      ∀ j, (row !! j = Some 0%Z → orow !! j = Some 0%Z) ∧
           (row !! j = Some 1%Z →
              orow !! j = Some (Z.of_nat (ones_before j row))).
Proof.
  intros Hmask out. subst out.
  split; [done|]. split.
  { unfold nrows. by rewrite rows_create_position_ids, length_fmap. }
  intros r row Hr. exists (position_row 0 row).
  rewrite rows_create_position_ids, list_lookup_fmap, Hr.
  split; [done|]. split; [apply length_position_row|].
  destruct (Forall_lookup_1 _ _ _ _ Hmask Hr) as [Hlen Hbit].
  intros j; split; intros Hj.
  - by rewrite (position_row_lookup row 0%Z j 0%Z).
  - rewrite (position_row_lookup row 0%Z j 1%Z); [|lia|lia|done|done].
    destruct (decide _); [lia|]. do 2 f_equal.
Qed.

Lemma create_position_ids_spec_witness :
  let out := create_position_ids (Tensor 5 [[1; 0; 1; 0; 1]%Z]) in
  ncols out = 5 ∧ nrows out = 1 ∧
  ∀ r row, [[1; 0; 1; 0; 1]%Z] !! r = Some row →
    ∃ orow, rows out !! r = Some orow ∧ length orow = length row ∧
      ∀ j, (row !! j = Some 0%Z → orow !! j = Some 0%Z) ∧
           (row !! j = Some 1%Z →
              orow !! j = Some (Z.of_nat (ones_before j row))).
Proof.
  apply (create_position_ids_spec (Tensor 5 [[1; 0; 1; 0; 1]%Z])).
  simpl. repeat constructor; lia.
Defined.

(** ** Example-level reconciliation *)

Lemma count_true_cons (b : bool) (mask : list bool) :
  count_true (b :: mask) = (if b then 1 else 0) + count_true mask.
Proof.
  unfold count_true. rewrite filter_cons.
  destruct b; destruct (decide _); simpl; congruence.
Qed.

Lemma count_true_app (m1 m2 : list bool) :
  count_true (m1 ++ m2) = count_true m1 + count_true m2.
Proof. unfold count_true. by rewrite filter_app, length_app. Qed.

Lemma count_true_take_lt (mask : list bool) (p : nat) :
  mask !! p = Some true → count_true (take p mask) < count_true mask.
Proof.
  intros Hp. rewrite <- (take_drop_middle mask p true Hp) at 2.
  rewrite count_true_app, count_true_cons. lia.
Qed.

Lemma masked_assign_spec {A} (dst : list (list A)) :
  ∀ (mask : list bool) (src : list (list A)),
  length dst = length mask →
  count_true mask = length src →
  ∃ rs, masked_assign dst mask src = Ok rs ∧ length rs = length dst ∧
    ∀ p, (mask !! p = Some true → rs !! p = src !! count_true (take p mask)) ∧
         (mask !! p = Some false → rs !! p = dst !! p).
Proof.
  induction dst as [|d dst IH]; intros mask src Hlen Hcnt.
  - destruct mask; [|done]. destruct src; [|done].
    exists []. repeat split; intros Hp; done.
  - destruct mask as [|m mask]; [done|].
    injection Hlen as Hlen. rewrite count_true_cons in Hcnt.
    destruct m.
    + destruct src as [|s src]; [done|]. injection Hcnt as Hcnt.
      destruct (IH mask src Hlen Hcnt) as (rs & Hrs & Hlrs & Hpos).
      exists (s :: rs). simpl. rewrite Hrs. simpl.
      split; [done|]. split; [by rewrite Hlrs|].
      intros [|p]; split; intros Hp; try done.
      * change (take (S p) (true :: mask)) with (true :: take p mask).
        rewrite count_true_cons. exact (proj1 (Hpos p) Hp).
      * exact (proj2 (Hpos p) Hp).
    + destruct (IH mask src Hlen Hcnt) as (rs & Hrs & Hlrs & Hpos).
      exists (d :: rs). simpl. rewrite Hrs. simpl.
      split; [done|]. split; [by rewrite Hlrs|].
      intros [|p]; split; intros Hp; try done.
      * change (take (S p) (false :: mask)) with (false :: take p mask).
        rewrite count_true_cons. exact (proj1 (Hpos p) Hp).
      * exact (proj2 (Hpos p) Hp).
Qed.

Lemma fill_strs_spec (mask : list bool) :
  ∀ (k s : nat) (out strs : list string),
  count_true mask + s ≤ length strs →
  ∃ res, fill_strs (zip (seq k (length mask)) mask) s out strs = Ok res ∧
    length res = length out ∧
    (∀ q, q < k → res !! q = out !! q) ∧
    ∀ p, (mask !! p = Some true → k + p < length out →
            res !! (k + p) = strs !! (s + count_true (take p mask))) ∧
         (mask !! p = Some false → res !! (k + p) = out !! (k + p)).
Proof.
  induction mask as [|m mask IH]; intros k s out strs Hcnt.
  - exists out. repeat split; intros; done.
  - rewrite count_true_cons in Hcnt. simpl. destruct m.
    + destruct (lookup_lt_is_Some_2 strs s) as [x Hx]; [simpl in Hcnt; lia|].
      rewrite Hx.
      destruct (IH (S k) (S s) (<[k := x]> out) strs) as (res & Hres & Hl & Hlow & Hpos);
        [simpl in Hcnt; lia|].
      exists res. rewrite Hres. split; [done|].
      split; [by rewrite Hl, length_insert|].
      split.
      { intros q Hq. rewrite Hlow by lia. apply list_lookup_insert_ne. lia. }
      intros [|p]; simpl; split.
      * intros _ Hk. rewrite Nat.add_0_r in *. rewrite Hlow by lia.
        rewrite list_lookup_insert_eq by done.
        change (count_true []) with 0. by rewrite Nat.add_0_r, Hx.
      * done.
      * intros Hp Hk. rewrite count_true_cons. simpl.
        replace (k + S p) with (S k + p) in * by lia.
        replace (s + S (count_true (take p mask)))
          with (S s + count_true (take p mask)) by lia.
        apply Hpos; [done|]. rewrite length_insert. lia.
      * intros Hp. replace (k + S p) with (S k + p) by lia.
        rewrite (proj2 (Hpos p) Hp).
        apply list_lookup_insert_ne. lia.
    + destruct (IH (S k) s out strs) as (res & Hres & Hl & Hlow & Hpos);
        [simpl in Hcnt; lia|].
      exists res. split; [done|]. split; [done|].
      split; [intros q Hq; apply Hlow; lia|].
      intros [|p]; simpl; split.
      * done.
      * intros _. rewrite Nat.add_0_r. apply Hlow. lia.
      * intros Hp Hk. rewrite count_true_cons. simpl.
        replace (k + S p) with (S k + p) in * by lia. by apply Hpos.
      * intros Hp. replace (k + S p) with (S k + p) by lia. by apply Hpos.
Qed.

(** C1.  With a pad token id that is an int64: when the mask has as many
    true entries as the active tensor has rows, and the strings run
    parallel to those rows, the i-th true position
    of the mask (left-to-right scan) receives the i-th active row and the
    i-th active string; every false position receives a row of pad tokens
    and the empty string. *)
Theorem example_level_pad_spec (config : TensorConfig) (responses : tensor Z)
    (responses_str : list string) (active_mask : list bool) :
  (- 2 ^ 63 ≤ pad_token_id config < 2 ^ 63)%Z →
  count_true active_mask = nrows responses →
  length responses_str = nrows responses →
  ∃ out strs,
    _example_level_pad config responses responses_str active_mask
      = Ok (out, strs) ∧
    nrows out = length active_mask ∧
    ncols out = ncols responses ∧
    length strs = length active_mask ∧
    ∀ p,
      (active_mask !! p = Some true →
         ∃ row s,
           rows responses !! count_true (take p active_mask) = Some row ∧
           responses_str !! count_true (take p active_mask) = Some s ∧
           rows out !! p = Some row ∧ strs !! p = Some s) ∧
      (active_mask !! p = Some false →
         rows out !! p
           = Some (replicate (ncols responses) (pad_token_id config)) ∧
         strs !! p = Some EmptyString).
Proof.
  intros Hpad Hcnt Hstr. unfold _example_level_pad.
  destruct (decide _) as [_|]; [|done].
  rewrite full_ok by done. cbn [bind].
  destruct (masked_assign_spec
              (rows (filled (length active_mask) (ncols responses)
                       (pad_token_id config)))
              active_mask (rows responses)) as (rs & Hrs & Hlrs & Hrows).
  { simpl. by rewrite length_replicate. }
  { done. }
  destruct (fill_strs_spec active_mask 0 0
              (replicate (length active_mask) EmptyString)
              responses_str) as (strs & Hstrs & Hlstrs & _ & Hpos).
  { lia. }
  exists (Tensor (ncols responses) rs), strs.
  rewrite Hrs. cbn [bind]. unfold enumerate. rewrite Hstrs. cbn [bind].
  simpl in Hlrs. rewrite length_replicate in Hlrs. rewrite length_replicate in Hlstrs.
  split; [done|]. split; [done|]. split; [done|]. split; [done|].
  cbn [rows]. intros p. split; intros Hp.
  - pose proof (count_true_take_lt _ _ Hp) as Hlt.
    pose proof (lookup_lt_Some _ _ _ Hp) as Hpn.
    destruct (lookup_lt_is_Some_2 (rows responses)
                (count_true (take p active_mask))) as [row Hrow];
      [unfold nrows in Hcnt; lia|].
    destruct (lookup_lt_is_Some_2 responses_str
                (count_true (take p active_mask))) as [s Hs]; [lia|].
    exists row, s. split; [done|]. split; [done|].
    rewrite (proj1 (Hrows p) Hp).
    assert (Hq : 0 + p < length (replicate (length active_mask) EmptyString))
      by (rewrite length_replicate; lia).
    by rewrite (proj1 (Hpos p) Hp Hq : strs !! p = _).
  - pose proof (lookup_lt_Some _ _ _ Hp) as Hpn.
    rewrite (proj2 (Hrows p) Hp).
    rewrite (proj2 (Hpos p) Hp : strs !! p = _).
    simpl. by rewrite !lookup_replicate_2.
Qed.

Lemma example_level_pad_spec_witness :
  ∃ out strs,
    _example_level_pad (Build_TensorConfig 0 8 8 8)
      (Tensor 2 [[11; 12]; [21; 22]]%Z) ["x"; "y"]%string [true; false; true]
      = Ok (out, strs) ∧
    nrows out = 3 ∧ ncols out = 2 ∧ length strs = 3 ∧
    ∀ p,
      ([true; false; true] !! p = Some true →
         ∃ row s,
           [[11; 12]; [21; 22]]%Z
             !! count_true (take p [true; false; true]) = Some row ∧
           ["x"; "y"]%string
             !! count_true (take p [true; false; true]) = Some s ∧
           rows out !! p = Some row ∧ strs !! p = Some s) ∧
      ([true; false; true] !! p = Some false →
         rows out !! p = Some (replicate 2 0%Z) ∧ strs !! p = Some EmptyString).
Proof.
  apply (example_level_pad_spec (Build_TensorConfig 0 8 8 8)
           (Tensor 2 [[11; 12]; [21; 22]]%Z) ["x"; "y"]%string
           [true; false; true]); [simpl; lia|reflexivity|reflexivity].
Defined.

(** Past the assertion, a pad token id that is not an int64 makes
    [torch.full] raise: nothing is scattered. *)
Lemma example_level_pad_pad_overflow (config : TensorConfig)
    (responses : tensor Z) (responses_str : list string)
    (active_mask : list bool) :
  ¬ (- 2 ^ 63 ≤ pad_token_id config < 2 ^ 63)%Z →
  count_true active_mask = nrows responses →
  _example_level_pad config responses responses_str active_mask
    = Raise RuntimeError.
Proof.
  intros Hpad Hcnt. unfold _example_level_pad, full.
  by rewrite decide_True, decide_False.
Qed.

(** C9.  A call whose mask does not have as many true entries as the active
    tensor has rows is rejected by the assertion, before anything is
    built. *)
Theorem example_level_pad_rejects (config : TensorConfig)
    (responses : tensor Z) (responses_str : list string)
    (active_mask : list bool) :
  count_true active_mask ≠ nrows responses →
  _example_level_pad config responses responses_str active_mask
    = Raise AssertionError.
Proof.
  intros Hne. unfold _example_level_pad.
  destruct (decide _) as [Heq|_]; [by destruct Hne|done].
Qed.

Lemma example_level_pad_rejects_witness :
  _example_level_pad (Build_TensorConfig 0 8 8 8)
    (Tensor 2 [[11; 12]]%Z) ["x"]%string [true; false; true]
    = Raise AssertionError.
Proof.
  apply (example_level_pad_rejects (Build_TensorConfig 0 8 8 8)
           (Tensor 2 [[11; 12]]%Z) ["x"]%string [true; false; true]).
  vm_compute. lia.
Defined.

(** ** Pad-side conversion *)

Lemma key_of_first pad b x : key_of pad b x = 0%Z ↔ goes_first pad b x.
Proof.
  unfold key_of, goes_first.
  destruct b; repeat case_bool_decide; simpl; naive_solver.
Qed.

Lemma key_of_bit pad b x : key_of pad b x = 0%Z ∨ key_of pad b x = 1%Z.
Proof. unfold key_of. destruct b; case_bool_decide; auto. Qed.

Lemma stable_insert_zero (p : Z * nat) (l : list (Z * nat)) :
  p.1 = 0%Z → Forall (λ q, q.1 = 0%Z ∨ q.1 = 1%Z) l →
  stable_insert p l = p :: l.
Proof.
  intros Hp Hl. destruct l as [|q l]; [done|].
  apply Forall_cons in Hl as [Hq _]. simpl.
  destruct (Z.leb_spec p.1 q.1); [done|lia].
Qed.

Lemma stable_insert_one (p : Z * nat) (l0 l1 : list (Z * nat)) :
  p.1 = 1%Z → Forall (λ q, q.1 = 0%Z) l0 → Forall (λ q, q.1 = 1%Z) l1 →
  stable_insert p (l0 ++ l1) = l0 ++ p :: l1.
Proof.
  intros Hp Hl0 Hl1. induction Hl0 as [|q l0 Hq _ IH]; simpl.
  - destruct l1 as [|q l1]; [done|].
    apply Forall_cons in Hl1 as [Hq _]. simpl.
    destruct (Z.leb_spec p.1 q.1); [done|lia].
  - destruct (Z.leb_spec p.1 q.1); [lia|]. by rewrite IH.
Qed.

Lemma stable_sort_bits (l : list (Z * nat)) :
  Forall (λ q, q.1 = 0%Z ∨ q.1 = 1%Z) l →
  foldr stable_insert [] l =
    filter (λ q, q.1 = 0%Z) l ++ filter (λ q, ¬ q.1 = 0%Z) l.
Proof.
  induction 1 as [|p l Hp Hl IH]; [done|].
  simpl. rewrite IH, !filter_cons.
  destruct (decide (p.1 = 0%Z)) as [H0|H0].
  - rewrite decide_False by tauto.
    apply stable_insert_zero; [done|].
    rewrite Forall_forall in Hl. apply Forall_forall.
    intros q [[_ Hin]%list_elem_of_filter|[_ Hin]%list_elem_of_filter]%elem_of_app;
      by apply Hl.
  - rewrite decide_True by done.
    apply stable_insert_one; [lia| |].
    + apply Forall_forall. intros q [Hq _]%list_elem_of_filter. done.
    + apply Forall_forall. intros q [Hq Hin]%list_elem_of_filter.
      rewrite Forall_forall in Hl. specialize (Hl q Hin). lia.
Qed.

Lemma filter_zip_seq {P : Z * nat → Prop} {Q : nat → Prop}
    `{∀ q, Decision (P q)} `{∀ j, Decision (Q j)}
    (f : Z → Z) (whole : list Z) :
  (∀ j x, whole !! j = Some x → P (f x, j) ↔ Q j) →
  ∀ row pre, whole = pre ++ row →
    (filter P (zip (f <$> row) (seq (length pre) (length row)))).*2
    = filter Q (seq (length pre) (length row)).
Proof.
  intros HPQ. induction row as [|x row IH]; intros pre Hwhole; [done|].
  assert (Hx : whole !! length pre = Some x)
    by (rewrite Hwhole; apply list_lookup_middle; done).
  specialize (IH (pre ++ [x])).
  rewrite length_app, Nat.add_1_r, <- app_assoc in IH. specialize (IH Hwhole).
  simpl. rewrite !filter_cons.
  destruct (decide (P _)) as [HP|HP]; destruct (decide (Q _)) as [HQ|HQ].
  - simpl. f_equal. exact IH.
  - destruct HQ. by apply (HPQ _ _ Hx).
  - destruct HP. by apply (HPQ _ _ Hx).
  - exact IH.
Qed.

Lemma gather_filter_seq {Q : nat → Prop} {Q' : Z → Prop}
    `{∀ j, Decision (Q j)} `{∀ x, Decision (Q' x)} (whole : list Z) :
  (∀ j x, whole !! j = Some x → Q j ↔ Q' x) →
  ∀ row pre, whole = pre ++ row →
    Forall2 (λ j y, whole !! j = Some y)
      (filter Q (seq (length pre) (length row))) (filter Q' row).
Proof.
  intros HQ. induction row as [|x row IH]; intros pre Hwhole; [constructor|].
  assert (Hx : whole !! length pre = Some x)
    by (rewrite Hwhole; apply list_lookup_middle; done).
  specialize (IH (pre ++ [x])).
  rewrite length_app, Nat.add_1_r, <- app_assoc in IH. specialize (IH Hwhole).
  simpl. rewrite !filter_cons.
  destruct (decide (Q _)) as [H1|H1]; destruct (decide (Q' _)) as [H2|H2].
  - by constructor.
  - destruct H2. by apply (HQ _ _ Hx).
  - destruct H1. by apply (HQ _ _ Hx).
  - exact IH.
Qed.

Lemma first_at_lookup pad b (row : list Z) j x :
  row !! j = Some x → first_at pad b row j = goes_first pad b x.
Proof. intros Hj. unfold first_at. by rewrite Hj. Qed.

Lemma zip_keys_bits pad b (row : list Z) k :
  Forall (λ q : Z * nat, q.1 = 0%Z ∨ q.1 = 1%Z)
    (zip (key_of pad b <$> row) (seq k (length row))).
Proof.
  revert k. induction row as [|x row IH]; intros k; simpl; constructor.
  - apply key_of_bit.
  - apply IH.
Qed.

Lemma argsort_row_keys pad b (row : list Z) :
  argsort_row (key_of pad b <$> row) = stable_index pad b row.
Proof.
  unfold argsort_row, stable_index. rewrite length_fmap.
  rewrite stable_sort_bits by apply zip_keys_bits.
  rewrite fmap_app. f_equal.
  - apply (filter_zip_seq (key_of pad b) row) with (pre := []); [|done].
    intros j x Hj. simpl. rewrite (first_at_lookup _ _ _ _ _ Hj).
    apply key_of_first.
  - apply (filter_zip_seq (key_of pad b) row) with (pre := []); [|done].
    intros j x Hj. simpl. rewrite (first_at_lookup _ _ _ _ _ Hj).
    by rewrite key_of_first.
Qed.

Lemma gather_row_stable pad b (row : list Z) :
  gather_row row (stable_index pad b row) = Some (stable_group pad b row).
Proof.
  unfold gather_row, stable_index, stable_group.
  apply mapM_Some_2, Forall2_app.
  - apply (gather_filter_seq row) with (pre := []); [|done].
    intros j x Hj. by rewrite (first_at_lookup _ _ _ _ _ Hj).
  - apply (gather_filter_seq row) with (pre := []); [|done].
    intros j x Hj. by rewrite (first_at_lookup _ _ _ _ _ Hj).
Qed.

Lemma gather_rows_stable pad b (rs : list (list Z)) :
  gather_rows rs (stable_index pad b <$> rs) = Some (stable_group pad b <$> rs).
Proof.
  induction rs as [|row rs IH]; [done|].
  rewrite !fmap_cons. cbn [gather_rows]. by rewrite gather_row_stable, IH.
Qed.

Lemma rows_keys (config : TensorConfig) (t : tensor Z) (b : bool) :
  rows (to_int64 (if b then ne_scalar t (pad_token_id config)
                  else eq_scalar t (pad_token_id config)))
  = (λ row : list Z, key_of (pad_token_id config) b <$> row) <$> rows t.
Proof.
  destruct b; simpl; rewrite <- list_fmap_compose;
    apply list_fmap_ext; intros _ row _; simpl;
    rewrite <- list_fmap_compose; done.
Qed.

(** The closed form of the conversion: every row is regrouped by
    [stable_group], and the returned indices are [stable_index]. *)
Lemma convert_pad_structure_rows (config : TensorConfig) (t : tensor Z)
    (pad_to_left : bool) :
  convert_pad_structure config t pad_to_left =
    Ok (Tensor (ncols t)
          (stable_group (pad_token_id config) pad_to_left <$> rows t),
        Tensor (ncols t)
          (stable_index (pad_token_id config) pad_to_left <$> rows t)).
Proof.
  unfold convert_pad_structure, argsort_dim1, map_rows, gather_dim1.
  rewrite rows_keys. cbn [rows ncols].
  rewrite <- list_fmap_compose.
  assert (Hidx : argsort_row ∘
                   (λ row : list Z,
                      key_of (pad_token_id config) pad_to_left <$> row)
                 <$> rows t
                 = stable_index (pad_token_id config) pad_to_left <$> rows t).
  { apply list_fmap_ext. intros _ row _. apply argsort_row_keys. }
  rewrite Hidx, gather_rows_stable. cbn [bind].
  by destruct pad_to_left.
Qed.

Lemma filter_seq_sorted (P : nat → Prop) `{∀ j, Decision (P j)} (n : nat) :
  ∀ k, StronglySorted lt (filter P (seq k n)).
Proof.
  induction n as [|n IH]; intros k; [constructor|].
  simpl. rewrite filter_cons.
  assert (Hk : Forall (lt k) (filter P (seq (S k) n))).
  { apply Forall_forall. intros j [_ Hj%elem_of_seq]%list_elem_of_filter. lia. }
  destruct (decide (P k)); [constructor|]; auto.
Qed.

Lemma StronglySorted_lookup_lt {A} (R : relation A) (l : list A) :
  StronglySorted R l →
  ∀ p q a b, p < q → l !! p = Some a → l !! q = Some b → R a b.
Proof.
  induction 1 as [|x l _ IH Hx]; intros p q a b Hpq Hp Hq; [done|].
  destruct q as [|q]; [lia|]. simpl in Hq.
  destruct p as [|p]; simpl in Hp.
  - injection Hp as ->. rewrite Forall_forall in Hx.
    apply Hx, list_elem_of_lookup. eauto.
  - apply (IH p q); [lia|done|done].
Qed.

Lemma filter_filter_disjoint {A} (P Q : A → Prop)
    `{∀ x, Decision (P x)} `{∀ x, Decision (Q x)} (l : list A) :
  (∀ x, Q x → ¬ P x) → filter P (filter Q l) = [].
Proof.
  intros HPQ. induction l as [|x l IH]; [done|].
  rewrite filter_cons. destruct (decide (Q x)) as [HQ|]; [|done].
  rewrite filter_cons, decide_False by auto. done.
Qed.

Lemma filter_filter_incl {A} (P Q : A → Prop)
    `{∀ x, Decision (P x)} `{∀ x, Decision (Q x)} (l : list A) :
  (∀ x, P x → Q x) → filter P (filter Q l) = filter P l.
Proof.
  intros HPQ. induction l as [|x l IH]; [done|].
  rewrite !filter_cons.
  destruct (decide (Q x)) as [HQ|HQ].
  - rewrite filter_cons. destruct (decide (P x)); by rewrite IH.
  - rewrite decide_False by auto. done.
Qed.

(** Real tokens keep their order: regrouping a row leaves the sequence of
    its non-pad cells as it was. *)
Lemma stable_group_real pad b (row : list Z) :
  filter (λ x, x ≠ pad) (stable_group pad b row) = filter (λ x, x ≠ pad) row.
Proof.
  unfold stable_group, goes_first. rewrite filter_app. destruct b.
  - rewrite filter_filter_disjoint, filter_filter_incl; [done| |];
      intros x; rewrite bool_decide_spec; tauto.
  - rewrite filter_filter_incl, filter_filter_disjoint, app_nil_r; [done| |];
      intros x; rewrite bool_decide_spec; [|tauto].
    destruct (decide (x = pad)); tauto.
Qed.

Lemma stable_group_pad pad b (row : list Z) :
  filter (λ x, x = pad) (stable_group pad b row) = filter (λ x, x = pad) row.
Proof.
  unfold stable_group, goes_first. rewrite filter_app. destruct b.
  - rewrite filter_filter_incl, filter_filter_disjoint, app_nil_r; [done| |];
      intros x; rewrite bool_decide_spec; tauto.
  - rewrite filter_filter_disjoint, filter_filter_incl; [done| |];
      intros x; rewrite bool_decide_spec; [|tauto].
    destruct (decide (x = pad)); tauto.
Qed.

Lemma filter_lookup_holds {A} (P : A → Prop) `{∀ x, Decision (P x)}
    (l : list A) (i : nat) (x : A) :
  filter P l !! i = Some x → P x.
Proof.
  intros Hi. assert (Hin : x ∈ filter P l) by (apply list_elem_of_lookup; eauto).
  by apply list_elem_of_filter in Hin as [HP _].
Qed.

Lemma stable_index_positions pad b (row : list Z) (p q jp jq : nat) :
  p < q →
  stable_index pad b row !! p = Some jp →
  stable_index pad b row !! q = Some jq →
  (first_at pad b row jq → first_at pad b row jp) ∧
  (first_at pad b row jp = first_at pad b row jq → jp < jq).
Proof.
  unfold stable_index. intros Hpq Hp Hq.
  pose proof (filter_seq_sorted (λ j, first_at pad b row j) (length row) 0)
    as Hs0.
  pose proof (filter_seq_sorted (λ j, ¬ first_at pad b row j) (length row) 0)
    as Hs1.
  apply lookup_app_Some in Hp as [Hp|[Hlp Hp]];
    apply lookup_app_Some in Hq as [Hq|[Hlq Hq]].
  - assert (Hjp : first_at pad b row jp).
    { by apply filter_lookup_holds in Hp. }
    split; [done|]. intros _.
    by apply (StronglySorted_lookup_lt _ _ Hs0 p q).
  - assert (Hjp : first_at pad b row jp).
    { by apply filter_lookup_holds in Hp. }
    assert (Hjq : ¬ first_at pad b row jq).
    { by apply filter_lookup_holds in Hq. }
    split; [done|]. intros Heq. rewrite Heq in Hjp. done.
  - apply lookup_lt_Some in Hq. lia.
  - assert (Hjq : ¬ first_at pad b row jq).
    { by apply filter_lookup_holds in Hq. }
    split; [done|]. intros _.
    eapply (StronglySorted_lookup_lt _ _ Hs1); [|exact Hp|exact Hq]. lia.
Qed.

(** C2.  [convert_pad_structure] reorders every row by a stable permutation
    of its columns: the columns of the class that goes first precede those
    of the other class, columns of one class keep their left-to-right
    order, and so the real tokens of the row keep their relative order. *)
Theorem convert_pad_structure_stable (config : TensorConfig) (t : tensor Z)
    (pad_to_left : bool) :
  ∃ out idx,
    convert_pad_structure config t pad_to_left = Ok (out, idx) ∧
    ncols out = ncols t ∧ nrows out = nrows t ∧
    ∀ r row, rows t !! r = Some row →
      ∃ orow perm,
        rows out !! r = Some orow ∧ rows idx !! r = Some perm ∧
        perm ≡ₚ seq 0 (length row) ∧
        Forall2 (λ j y, row !! j = Some y) perm orow ∧
        (∀ p q jp jq, p < q → perm !! p = Some jp → perm !! q = Some jq →
           (first_at (pad_token_id config) pad_to_left row jq →
            first_at (pad_token_id config) pad_to_left row jp) ∧
           (first_at (pad_token_id config) pad_to_left row jp
              = first_at (pad_token_id config) pad_to_left row jq →
            jp < jq)) ∧
        filter (λ x, x ≠ pad_token_id config) orow
          = filter (λ x, x ≠ pad_token_id config) row.
Proof.
  eexists _, _. split; [apply convert_pad_structure_rows|].
  cbn [ncols rows]. split; [done|].
  split; [unfold nrows; cbn [rows]; by rewrite length_fmap|].
  intros r row Hr.
  exists (stable_group (pad_token_id config) pad_to_left row),
         (stable_index (pad_token_id config) pad_to_left row).
  rewrite !list_lookup_fmap, Hr.
  split; [done|]. split; [done|].
  split; [apply filter_app_complement|].
  split; [apply mapM_Some_1, gather_row_stable|].
  split; [intros p q jp jq; apply stable_index_positions|].
  apply stable_group_real.
Qed.

Lemma stable_group_left pad (row : list Z) :
  stable_group pad true row
  = filter (λ x, x = pad) row ++ filter (λ x, x ≠ pad) row.
Proof.
  unfold stable_group, goes_first. f_equal; apply list_filter_iff;
    intros x; rewrite bool_decide_spec; tauto.
Qed.

Lemma stable_group_right pad (row : list Z) :
  stable_group pad false row
  = filter (λ x, x ≠ pad) row ++ filter (λ x, x = pad) row.
Proof.
  unfold stable_group, goes_first. f_equal; apply list_filter_iff;
    intros x; rewrite bool_decide_spec; [tauto|].
  destruct (decide (x = pad)); tauto.
Qed.

Lemma filter_pad_replicate pad (k : nat) :
  filter (λ x : Z, x = pad) (replicate k pad) = replicate k pad.
Proof.
  induction k as [|k IH]; [done|].
  simpl. rewrite filter_cons, decide_True by done. by rewrite IH.
Qed.

Lemma filter_real_replicate pad (k : nat) :
  filter (λ x : Z, x ≠ pad) (replicate k pad) = [].
Proof.
  induction k as [|k IH]; [done|].
  simpl. rewrite filter_cons, decide_False by tauto. done.
Qed.

Lemma filter_real_all pad (xs : list Z) :
  Forall (λ x, x ≠ pad) xs → filter (λ x, x ≠ pad) xs = xs.
Proof.
  induction 1 as [|x xs Hx _ IH]; [done|].
  rewrite filter_cons, decide_True by done. by rewrite IH.
Qed.

Lemma filter_pad_none pad (xs : list Z) :
  Forall (λ x, x ≠ pad) xs → filter (λ x, x = pad) xs = [].
Proof.
  induction 1 as [|x xs Hx _ IH]; [done|].
  rewrite filter_cons, decide_False by done. done.
Qed.

(** Regrouping a pad-left row to the right and back to the left. *)
Lemma stable_group_round_trip pad (k : nat) (xs : list Z) :
  Forall (λ x, x ≠ pad) xs →
  stable_group pad true (stable_group pad false (replicate k pad ++ xs))
  = replicate k pad ++ xs.
Proof.
  intros Hxs.
  rewrite stable_group_left, stable_group_pad, stable_group_real, !filter_app.
  rewrite filter_pad_replicate, filter_real_replicate.
  rewrite filter_pad_none, filter_real_all by done.
  by rewrite app_nil_r.
Qed.

(** C5.  On an array in pad-left layout, converting to pad-right and then
    back to pad-left gives the original array again. *)
Theorem convert_pad_structure_round_trip (config : TensorConfig)
    (t : tensor Z) :
  Forall (pad_left_layout (pad_token_id config)) (rows t) →
  ∃ right idx_right left idx_left,
    convert_pad_structure config t false = Ok (right, idx_right) ∧
    convert_pad_structure config right true = Ok (left, idx_left) ∧
    left = t.
Proof.
  intros Hlayout. eexists _, _, _, _.
  split; [apply convert_pad_structure_rows|].
  split; [apply convert_pad_structure_rows|].
  destruct t as [n rs]. cbn [ncols rows] in *. f_equal.
  rewrite <- list_fmap_compose.
  rewrite <- (list_fmap_id rs) at 2.
  apply list_fmap_ext. intros i row Hrow. simpl.
  destruct (Forall_lookup_1 _ _ _ _ Hlayout Hrow) as (k & xs & -> & Hxs).
  by apply stable_group_round_trip.
Qed.

Lemma convert_pad_structure_round_trip_witness :
  ∃ right idx_right left idx_left,
    convert_pad_structure (Build_TensorConfig 0 8 8 8)
      (Tensor 4 [[0; 0; 5; 6]; [0; 7; 8; 9]]%Z) false
      = Ok (right, idx_right) ∧
    convert_pad_structure (Build_TensorConfig 0 8 8 8) right true
      = Ok (left, idx_left) ∧
    left = Tensor 4 [[0; 0; 5; 6]; [0; 7; 8; 9]]%Z.
Proof.
  apply (convert_pad_structure_round_trip (Build_TensorConfig 0 8 8 8)
           (Tensor 4 [[0; 0; 5; 6]; [0; 7; 8; 9]]%Z)).
  repeat constructor.
  - exists 2, [5; 6]%Z. split; [reflexivity|]. repeat constructor; simpl; lia.
  - exists 1, [7; 8; 9]%Z. split; [reflexivity|]. repeat constructor; simpl; lia.
Defined.

(** ** Concatenation with re-padding *)

Lemma nrows_hcat {A} (a b : tensor A) :
  nrows a = nrows b → nrows (hcat a b) = nrows a.
Proof. unfold nrows, hcat. cbn [rows]. rewrite length_zip_with. lia. Qed.

Lemma cat_dim1_fold (ts : list (tensor Z)) :
  ∀ acc : tensor Z,
  Forall (λ t, nrows t = nrows acc) ts →
  foldl (λ acc t, bind acc (λ a,
           if decide (nrows a = nrows t) then Ok (hcat a t)
           else Raise RuntimeError)) (Ok acc) ts
  = Ok (Tensor (ncols acc + sum_list (ncols <$> ts))
          ((λ i, default [] (rows acc !! i) ++
                 concat ((λ t, default [] (rows t !! i)) <$> ts))
             <$> seq 0 (nrows acc))).
Proof.
  induction ts as [|t ts IH]; intros acc Hrows.
  - simpl. f_equal. destruct acc as [n rs]. cbn [ncols rows nrows].
    f_equal; [lia|]. apply list_eq. intros i.
    rewrite list_lookup_fmap.
    destruct (rs !! i) as [row|] eqn:Hi.
    + rewrite lookup_seq_lt by (by eapply lookup_lt_Some).
      simpl. by rewrite Hi, app_nil_r.
    + rewrite lookup_ge_None_2; [done|].
      rewrite length_seq. by apply lookup_ge_None_1.
  - apply Forall_cons in Hrows as [Ht Hts].
    cbn [foldl bind]. rewrite decide_True by done.
    rewrite IH by (by rewrite nrows_hcat).
    rewrite nrows_hcat by done. f_equal.
    cbn [ncols hcat fmap list_fmap sum_list sum_list_with]. f_equal; [unfold id; lia|].
    apply list_fmap_ext. intros i ? [-> Hi]%lookup_seq. simpl.
    unfold nrows in *.
    destruct (lookup_lt_is_Some_2 (rows acc) i) as [ra Hra]; [lia|].
    destruct (lookup_lt_is_Some_2 (rows t) i) as [rt Hrt]; [lia|].
    rewrite lookup_zip_with, Hra, Hrt. simpl. by rewrite app_assoc.
Qed.

Lemma cat_dim1_column_append (ts : list (tensor Z)) :
  (∀ t t', t ∈ ts → t' ∈ ts → nrows t = nrows t') →
  cat_dim1 ts = column_append ts.
Proof.
  intros Hrows. destruct ts as [|t0 ts]; [done|].
  unfold cat_dim1, column_append. rewrite cat_dim1_fold.
  - reflexivity.
  - apply Forall_forall. intros t Ht. apply Hrows; set_solver.
Qed.

(** C4.  [concatenate_with_padding] is the column-wise concatenation of the
    tensors, in list order, followed by the conversion of the result to the
    requested pad side.  In particular a pad-left array followed by a
    pad-right array, converted to pad-left, has in each row the pads of both
    at the left edge and the real tokens of both, in their order, at the
    right edge. *)
Theorem concatenate_with_padding_spec (config : TensorConfig)
    (tensors : list (tensor Z)) (pad_to_left : bool) :
  (∀ t t', t ∈ tensors → t' ∈ tensors → nrows t = nrows t') →
  concatenate_with_padding config tensors pad_to_left
    = bind (column_append tensors)
        (λ c, Ok (pad_side (pad_token_id config) pad_to_left c)) ∧
  (∀ a b, tensors = [a; b] → pad_to_left = true →
     ∃ out, concatenate_with_padding config tensors pad_to_left = Ok out ∧
       nrows out = nrows a ∧ ncols out = ncols a + ncols b ∧
       ∀ r ka xa kb xb,
         rows a !! r = Some (replicate ka (pad_token_id config) ++ xa) →
         Forall (λ x, x ≠ pad_token_id config) xa →
         rows b !! r = Some (xb ++ replicate kb (pad_token_id config)) →
         Forall (λ x, x ≠ pad_token_id config) xb →
         rows out !! r
           = Some (replicate (ka + kb) (pad_token_id config) ++ xa ++ xb)).
Proof.
  intros Hrows.
  assert (Hcat : concatenate_with_padding config tensors pad_to_left
            = bind (column_append tensors)
                (λ c, Ok (pad_side (pad_token_id config) pad_to_left c))).
  { unfold concatenate_with_padding.
    rewrite cat_dim1_column_append by done.
    destruct (column_append tensors) as [c|e]; [|done].
    cbn [bind]. by rewrite convert_pad_structure_rows. }
  split; [done|].
  intros a b -> ->. rewrite Hcat.
  assert (Hn : nrows a = nrows b) by (apply Hrows; set_solver).
  eexists. split; [done|].
  split.
  { unfold nrows at 1. cbn [pad_side rows].
    by rewrite !length_fmap, length_seq. }
  split; [simpl; lia|]. cbn [pad_side rows].
  intros r ka xa kb xb Ha Hxa Hb Hxb.
  rewrite !list_lookup_fmap, lookup_seq_lt by (by eapply lookup_lt_Some).
  simpl. rewrite Ha, Hb. simpl. f_equal.
  rewrite app_nil_r, stable_group_left, !filter_app.
  rewrite !filter_pad_replicate, !filter_real_replicate.
  rewrite !filter_pad_none, !filter_real_all by done.
  rewrite !app_nil_r. simpl. by rewrite replicate_add, <- app_assoc.
Qed.

Lemma concatenate_with_padding_spec_witness :
  concatenate_with_padding (Build_TensorConfig 0 8 8 8)
    [Tensor 2 [[0; 7]; [8; 9]]%Z; Tensor 3 [[5; 0; 0]; [6; 4; 0]]%Z] true
  = Ok (Tensor 5 [[0; 0; 0; 7; 5]; [0; 8; 9; 6; 4]]%Z).
Proof.
  refine (eq_trans (proj1 (concatenate_with_padding_spec
            (Build_TensorConfig 0 8 8 8)
            [Tensor 2 [[0; 7]; [8; 9]]%Z; Tensor 3 [[5; 0; 0]; [6; 4; 0]]%Z]
            true _)) _).
  - intros t t' Ht Ht'.
    apply elem_of_cons in Ht as [->|Ht%list_elem_of_singleton];
      apply elem_of_cons in Ht' as [->|Ht'%list_elem_of_singleton];
      subst; reflexivity.
  - vm_compute. reflexivity.
Defined.

(** ** Turn-level reconciliation *)

Lemma block_col_fits (b : bool) (L_max L : nat) :
  L ≤ L_max → block_col b L_max L + L ≤ L_max.
Proof. unfold block_col. destruct b; lia. Qed.

Lemma copy_blocks_closed (D : list nat) (pad : Z) (pad_to_left : bool)
    (L_max : nat) (ts : list ntensor) :
  Forall (λ t, rest t = D ∧ ncols (body t) ≤ L_max) ts →
  ∀ (above : list (list (list Z))) (m : nat),
  copy_blocks (zip ((λ t, nrows (body t)) <$> ts) ts) L_max pad_to_left
    (NTensor D (Tensor L_max
       (above ++ replicate (sum_list ((λ t, nrows (body t)) <$> ts) + m)
                  (replicate L_max (pad_cell D pad)))))
    (length above)
  = Ok (NTensor D (Tensor L_max
       (above ++ concat (pad_block D pad pad_to_left L_max <$> ts)
             ++ replicate m (replicate L_max (pad_cell D pad))))).
Proof.
  induction 1 as [|t ts [HD HL] _ IH]; intros above m; [done|].
  rewrite !fmap_cons. cbn [zip_with copy_blocks sum_list sum_list_with concat].
  fold (block_col pad_to_left L_max (ncols (body t))).
  set (c0 := block_col pad_to_left L_max (ncols (body t))).
  pose proof (block_col_fits pad_to_left L_max _ HL) as Hfit. fold c0 in Hfit.
  unfold assign_block. cbn [rest body rows ncols].
  rewrite drop_app_length, take_app_length.
  rewrite <- Nat.add_assoc, take_replicate_add, length_replicate.
  rewrite decide_True by (unfold nrows; split_and!; [done|done|lia]).
  cbn [bind].
  rewrite drop_app_add, drop_replicate_add.
  rewrite zip_with_replicate_l by done.
  specialize (IH (above ++ pad_block D pad pad_to_left L_max t) m).
  rewrite length_app in IH. unfold pad_block at 2 in IH.
  rewrite length_fmap in IH. fold (nrows (body t)) in IH.
  rewrite <- !app_assoc in IH. rewrite <- !app_assoc, <- IH. clear IH.
  do 5 f_equal. unfold pad_block. apply list_fmap_ext. intros _ row _.
  unfold splice. rewrite take_replicate, drop_replicate. fold c0.
  by rewrite Nat.min_l by lia.
Qed.

Lemma lookup_concat_block {A} (ls : list (list A)) :
  ∀ (k : nat) (l : list A) (i : nat) (x : A),
  ls !! k = Some l → l !! i = Some x →
  concat ls !! (sum_list (length <$> take k ls) + i) = Some x.
Proof.
  induction ls as [|l0 ls IH]; intros k l i x Hk Hi; [done|].
  destruct k as [|k]; simpl in Hk.
  - injection Hk as ->. by apply lookup_app_l_Some.
  - change (concat (l0 :: ls)) with (l0 ++ concat ls).
    change (take (S k) (l0 :: ls)) with (l0 :: take k ls).
    rewrite fmap_cons.
    change (sum_list (length l0 :: (length <$> take k ls)))
      with (length l0 + sum_list (length <$> take k ls)).
    rewrite <- Nat.add_assoc, lookup_app_r by lia.
    replace (length l0 + (sum_list (length <$> take k ls) + i) - length l0)
      with (sum_list (length <$> take k ls) + i) by lia.
    by apply (IH k l).
Qed.

Lemma length_concat_blocks {A B} (f : A → list B) (g : A → nat)
    (l : list A) :
  (∀ x, length (f x) = g x) →
  length (concat (f <$> l)) = sum_list (g <$> l).
Proof.
  intros Hfg. induction l as [|x l IH]; [done|].
  rewrite !fmap_cons. cbn [concat sum_list sum_list_with].
  rewrite length_app, Hfg. unfold sum_list in IH. by rewrite IH.
Qed.

Lemma pad_block_row (D : list nat) (pad : Z) (b : bool) (L_max : nat)
    (t : ntensor) (row : list (list Z)) :
  ncols (body t) ≤ L_max →
  length row = ncols (body t) →
  let c0 := block_col b L_max (ncols (body t)) in
  let orow := replicate c0 (pad_cell D pad) ++ row ++
              replicate (L_max - (c0 + ncols (body t))) (pad_cell D pad) in
  length orow = L_max ∧
  (∀ j c, row !! j = Some c → orow !! (c0 + j) = Some c) ∧
  (∀ j, j < L_max → ¬ (c0 ≤ j < c0 + ncols (body t)) →
        orow !! j = Some (pad_cell D pad)).
Proof.
  intros HL Hrow c0 orow. subst orow.
  pose proof (block_col_fits b L_max _ HL) as Hfit. fold c0 in Hfit.
  split; [rewrite !length_app, !length_replicate; lia|]. split.
  - intros j c Hj. rewrite lookup_app_r by (rewrite length_replicate; lia).
    rewrite length_replicate. replace (c0 + j - c0) with j by lia.
    by apply lookup_app_l_Some.
  - intros j Hj Hout. destruct (decide (j < c0)) as [Hlt|Hge].
    + rewrite lookup_app_l by (by rewrite length_replicate).
      by apply lookup_replicate_2.
    + rewrite lookup_app_r by (rewrite length_replicate; lia).
      rewrite lookup_app_r by (rewrite length_replicate; lia).
      apply lookup_replicate_2. rewrite length_replicate. lia.
Qed.

Lemma turn_level_closed (config : TensorConfig) (t0 : ntensor)
    (ts : list ntensor) (pad_to_left : bool) (D : list nat) :
  (- 2 ^ 63 ≤ pad_token_id config < 2 ^ 63)%Z →
  Forall (λ t, rest t = D ∧
               ncols (body t)
                 ≤ max_list ((λ t, ncols (body t)) <$> t0 :: ts)) (t0 :: ts) →
  _turn_level_pad_and_concatenate config (t0 :: ts) pad_to_left
  = Ok (NTensor D
          (Tensor (max_list ((λ t, ncols (body t)) <$> t0 :: ts))
             (concat (pad_block D (pad_token_id config) pad_to_left
                        (max_list ((λ t, ncols (body t)) <$> t0 :: ts))
                      <$> t0 :: ts)))).
Proof.
  intros Hpad Hfit.
  assert (HD0 : rest t0 = D) by (by apply Forall_cons in Hfit as [[? _] _]).
  unfold _turn_level_pad_and_concatenate. rewrite HD0.
  rewrite new_full_ok by done. cbn [bind].
  pose proof (copy_blocks_closed D (pad_token_id config) pad_to_left _
                (t0 :: ts) Hfit [] 0) as Hloop.
  rewrite Nat.add_0_r, app_nil_r in Hloop. exact Hloop.
Qed.

(** A pad token id that is not an int64 makes [new_full] raise before any
    block is copied. *)
Lemma turn_level_pad_overflow (config : TensorConfig) (t0 : ntensor)
    (ts : list ntensor) (pad_to_left : bool) :
  ¬ (- 2 ^ 63 ≤ pad_token_id config < 2 ^ 63)%Z →
  _turn_level_pad_and_concatenate config (t0 :: ts) pad_to_left
    = Raise RuntimeError.
Proof.
  intros Hpad. unfold _turn_level_pad_and_concatenate, new_full.
  by rewrite decide_False.
Qed.

(** C3.  With a pad token id that is an int64: for a non-empty list of
    tensors of shapes (b_i, L_i, *D) the result has shape
    (sum of b_i, L_max, *D).  The rows of the k-th tensor
    fill the output rows from [block_row tensors k] on, in their order, so
    the blocks follow one another in input order.  Inside a block the L_i
    cells of a row sit at the columns from [block_col] on (column 0 when
    padding to the right, column L_max - L_i when padding to the left) and
    every other column holds the pad token. *)
Theorem turn_level_pad_and_concatenate_spec (config : TensorConfig)
    (tensors : list ntensor) (pad_to_left : bool) (D : list nat) :
  (- 2 ^ 63 ≤ pad_token_id config < 2 ^ 63)%Z →
  tensors ≠ [] →
  Forall (λ t, wf (body t) ∧ rest t = D) tensors →
  let L_max := max_list ((λ t, ncols (body t)) <$> tensors) in
  ∃ out,
    _turn_level_pad_and_concatenate config tensors pad_to_left = Ok out ∧
    rest out = D ∧
    nrows (body out) = sum_list ((λ t, nrows (body t)) <$> tensors) ∧
    ncols (body out) = L_max ∧
    ∀ k t i row, tensors !! k = Some t → rows (body t) !! i = Some row →
      ∃ orow,
        rows (body out) !! (block_row tensors k + i) = Some orow ∧
        length orow = L_max ∧
        (∀ j c, row !! j = Some c →
           orow !! (block_col pad_to_left L_max (ncols (body t)) + j)
             = Some c) ∧
        (∀ j, j < L_max →
           ¬ (block_col pad_to_left L_max (ncols (body t)) ≤ j
              < block_col pad_to_left L_max (ncols (body t))
                + ncols (body t)) →
           orow !! j = Some (pad_cell D (pad_token_id config))).
Proof.
  intros Hpad Hne Hts. destruct tensors as [|t0 ts]; [done|]. clear Hne.
  set (tensors := t0 :: ts) in *. intros L_max.
  assert (Hfit : Forall (λ t, rest t = D ∧ ncols (body t) ≤ L_max) tensors).
  { rewrite Forall_forall in Hts. apply Forall_forall. intros t Ht.
    split; [by apply Hts|].
    apply max_list_elem_of_le.
    by apply (list_elem_of_fmap_2 (λ t, ncols (body t))). }
  eexists. split; [by apply turn_level_closed|]. cbn [rest body ncols rows].
  split; [done|]. split.
  { unfold nrows at 1. cbn [rows]. apply length_concat_blocks.
    intros t. unfold pad_block. by rewrite length_fmap. }
  split; [done|].
  intros k t i row Hk Hi.
  destruct (Forall_lookup_1 _ _ _ _ Hts Hk) as [Hwf _].
  destruct (Forall_lookup_1 _ _ _ _ Hfit Hk) as [_ HL].
  pose proof (Forall_lookup_1 _ _ _ _ Hwf Hi) as Hrow. simpl in Hrow.
  eexists. split; [|by apply pad_block_row].
  unfold block_row.
  replace ((λ t, nrows (body t)) <$> take k tensors)
    with (length <$> take k (pad_block D (pad_token_id config) pad_to_left
                               L_max <$> tensors)).
  - apply (lookup_concat_block _ k
             (pad_block D (pad_token_id config) pad_to_left L_max t)).
    + by rewrite list_lookup_fmap, Hk.
    + unfold pad_block. by rewrite list_lookup_fmap, Hi.
  - rewrite <- fmap_take, <- list_fmap_compose.
    apply list_fmap_ext. intros _ t' _. simpl.
    unfold pad_block. by rewrite length_fmap.
Qed.

Lemma turn_level_pad_and_concatenate_spec_witness :
  ∃ out,
    _turn_level_pad_and_concatenate (Build_TensorConfig 0 8 8 8)
      [NTensor [] (Tensor 3 [[[1]; [2]; [3]]; [[4]; [5]; [6]]]%Z);
       NTensor [] (Tensor 5 [[[7]; [8]; [9]; [10]; [11]]]%Z)] false
    = Ok out ∧
    nrows (body out) = 3 ∧ ncols (body out) = 5 ∧
    rows (body out) !! 1 = Some [[4]; [5]; [6]; [0]; [0]]%Z.
Proof.
  destruct (turn_level_pad_and_concatenate_spec (Build_TensorConfig 0 8 8 8)
      [NTensor [] (Tensor 3 [[[1]; [2]; [3]]; [[4]; [5]; [6]]]%Z);
       NTensor [] (Tensor 5 [[[7]; [8]; [9]; [10]; [11]]]%Z)] false [])
    as (out & Hrun & _ & Hn & Hc & _).
  - simpl. lia.
  - discriminate.
  - repeat constructor.
  - exists out. split; [exact Hrun|]. split; [exact Hn|]. split; [exact Hc|].
    vm_compute in Hrun. injection Hrun as <-. reflexivity.
Defined.

(** ** Effective-length trimming *)

Lemma for_each_cut_loop (h : heap) (r : ref)
    (d : gmap string (tensor Z)) (cut_left : bool) (e : Z)
    (keys : list string) :
  h !! r = Some d →
  ∀ dres : gmap string (tensor Z),
  for_each keys (λ key,
    if cut_left then
      let* t := dict_getitem r key in
      dict_setitem (length h) key (slice_cols_from (neg e) t)
    else
      let* t := dict_getitem r key in
      dict_setitem (length h) key (slice_cols_to e t)) (h ++ [dres])
  = ((h ++ [(cut_loop d (cut cut_left e) keys dres).1]),
     (cut_loop d (cut cut_left e) keys dres).2).
Proof.
  intros Hr. induction keys as [|key keys IH]; intros dres; [done|].
  assert (Hget : ∀ dres', dict_getitem r key (h ++ [dres']) =
            (h ++ [dres'],
             match d !! key with
             | Some t => Ok t
             | None => Raise (KeyError key)
             end)).
  { intros dres'. unfold dict_getitem. cbv beta.
    rewrite lookup_app_l by (by eapply lookup_lt_Some).
    rewrite Hr. simpl. by destruct (d !! key). }
  assert (Hset : ∀ dres' t, dict_setitem (length h) key t (h ++ [dres']) =
            (h ++ [<[key := t]> dres'], Ok tt)).
  { intros dres' t. unfold dict_setitem. cbv beta. f_equal.
    rewrite alter_app_r_alt by lia. by rewrite Nat.sub_diag. }
  cbn [for_each cut_loop]. unfold st_bind at 1.
  destruct cut_left; unfold st_bind at 1; rewrite Hget;
    (destruct (d !! key) as [t|]; [|done]);
    rewrite Hset; apply IH.
Qed.

(** What a call does, as one equation: the two ways of failing before the
    copy leave the store as it was; after the copy the store has one more
    dict, whatever the outcome of the loop. *)
Lemma cut_to_effective_len_run (h : heap) (r : ref)
    (d : gmap string (tensor Z)) (keys : list string) (cut_left : bool) :
  h !! r = Some d →
  cut_to_effective_len r keys cut_left h =
    match d !! "attention_mask"%string with
    | None => (h, Raise (KeyError "attention_mask"))
    | Some mask =>
        match max_all (sum_dim1 mask) with
        | Raise e => (h, Raise e)
        | Ok e =>
            (h ++ [(cut_loop d (cut cut_left e) keys d).1],
             match (cut_loop d (cut cut_left e) keys d).2 with
             | Ok _ => Ok (length h)
             | Raise e => Raise e
             end)
        end
    end.
Proof.
  intros Hr. unfold cut_to_effective_len.
  unfold st_bind at 1. unfold dict_getitem at 1. rewrite Hr. simpl.
  destruct (d !! "attention_mask"%string) as [mask|]; [|done].
  unfold st_bind at 1. unfold lift at 1.
  destruct (max_all (sum_dim1 mask)) as [e|err]; [|done].
  unfold st_bind at 1. unfold dict_copy at 1. rewrite Hr. cbn [default].
  unfold st_bind at 1. unfold id.
  rewrite (for_each_cut_loop h r d cut_left e keys Hr d).
  by destruct (cut_loop d (cut cut_left e) keys d).2.
Qed.

Lemma cut_loop_ok (d : gmap string (tensor Z)) (f : tensor Z → tensor Z)
    (keys : list string) :
  Forall (λ k, is_Some (d !! k)) keys →
  ∀ dres, (cut_loop d f keys dres).2 = Ok tt.
Proof.
  induction 1 as [|k keys [t Hk] _ IH]; intros dres; [done|].
  simpl. rewrite Hk. apply IH.
Qed.

Lemma cut_loop_frame (d : gmap string (tensor Z)) (f : tensor Z → tensor Z)
    (keys : list string) (k : string) :
  k ∉ keys →
  ∀ dres, (cut_loop d f keys dres).1 !! k = dres !! k.
Proof.
  induction keys as [|key keys IH]; intros Hk dres; [done|].
  apply not_elem_of_cons in Hk as [Hne Hk].
  simpl. destruct (d !! key); [|done].
  rewrite IH by done. by apply lookup_insert_ne.
Qed.

Lemma cut_loop_keeps_keys (d : gmap string (tensor Z))
    (f : tensor Z → tensor Z) (keys : list string) (k : string) :
  ∀ dres, is_Some (dres !! k) → is_Some ((cut_loop d f keys dres).1 !! k).
Proof.
  induction keys as [|key keys IH]; intros dres Hk; [done|].
  simpl. destruct (d !! key); [|done].
  apply IH. rewrite lookup_insert. case_decide; [eauto|done].
Qed.

Lemma cut_loop_listed (d : gmap string (tensor Z)) (f : tensor Z → tensor Z)
    (keys : list string) (k : string) (t : tensor Z) :
  Forall (λ k, is_Some (d !! k)) keys →
  d !! k = Some t →
  ∀ dres, k ∈ keys ∨ dres !! k = Some (f t) →
          (cut_loop d f keys dres).1 !! k = Some (f t).
Proof.
  intros Hkeys Hk. induction Hkeys as [|key keys [t' Hkey] _ IH];
    intros dres Hin.
  - destruct Hin as [Hin|Hin]; [by apply elem_of_nil in Hin|done].
  - simpl. rewrite Hkey. apply IH.
    destruct (decide (key = k)) as [->|Hne].
    + right. rewrite lookup_insert_eq. congruence.
    + destruct Hin as [Hin|Hin].
      * apply elem_of_cons in Hin as [->|Hin]; [done|by left].
      * right. by rewrite lookup_insert_ne.
Qed.

Lemma wrap64_range z : (- 2 ^ 63 ≤ wrap64 z < 2 ^ 63)%Z.
Proof.
  unfold wrap64.
  pose proof (Z.mod_pos_bound (z + 2 ^ 63) (2 ^ 64)) as Hb. lia.
Qed.

Lemma sum_row_range (l : list Z) : (- 2 ^ 63 ≤ sum_row l < 2 ^ 63)%Z.
Proof.
  unfold sum_row.
  assert (Hgen : ∀ acc, (- 2 ^ 63 ≤ acc < 2 ^ 63)%Z →
            (- 2 ^ 63 ≤ foldl (λ acc x, wrap64 (acc + x)) acc l < 2 ^ 63)%Z).
  { induction l as [|x l IH]; intros acc Hacc; [done|].
    simpl. apply IH, wrap64_range. }
  apply Hgen. lia.
Qed.

Lemma foldl_max_range (v : list Z) :
  ∀ x, (- 2 ^ 63 ≤ x < 2 ^ 63)%Z →
  Forall (λ y, (- 2 ^ 63 ≤ y < 2 ^ 63)%Z) v →
  (- 2 ^ 63 ≤ foldl Z.max x v < 2 ^ 63)%Z.
Proof.
  induction v as [|y v IH]; intros x Hx Hv; [done|].
  apply Forall_cons in Hv as [Hy Hv]. simpl. apply IH; [lia|done].
Qed.

Lemma effective_len_defined (mask : tensor Z) :
  rows mask ≠ [] →
  ∃ e, max_all (sum_dim1 mask) = Ok e ∧ (- 2 ^ 63 ≤ e < 2 ^ 63)%Z.
Proof.
  intros Hne. unfold sum_dim1.
  destruct (rows mask) as [|row rs]; [done|].
  rewrite fmap_cons. eexists. split; [done|].
  apply foldl_max_range; [apply sum_row_range|].
  apply Forall_fmap, Forall_forall. intros r _. apply sum_row_range.
Qed.

Lemma take_min_length {A} (n : nat) (l : list A) :
  take (Nat.min n (length l)) l = take n l.
Proof.
  destruct (decide (n ≤ length l)) as [Hle|Hgt].
  - by rewrite Nat.min_l.
  - rewrite Nat.min_r, !take_ge by lia. done.
Qed.

Lemma cut_right_closed (e : Z) (t : tensor Z) :
  (0 ≤ e)%Z →
  cut false e t
  = Tensor (Nat.min (Z.to_nat e) (ncols t)) (take (Z.to_nat e) <$> rows t).
Proof.
  intros He. unfold cut, slice_cols_to, slice_to, adjust_index.
  destruct (Z.ltb_spec e 0); [lia|]. f_equal; [lia|].
  apply list_fmap_ext. intros _ row _.
  rewrite <- (take_min_length (Z.to_nat e) row). f_equal. lia.
Qed.

Lemma cut_left_closed (e : Z) (t : tensor Z) :
  (0 < e < 2 ^ 63)%Z →
  cut true e t
  = Tensor (Nat.min (Z.to_nat e) (ncols t))
      ((λ row, drop (length row - Z.to_nat e) row) <$> rows t).
Proof.
  intros He. unfold cut, slice_cols_from, slice_from, adjust_index, neg.
  rewrite wrap64_id by lia.
  destruct (Z.ltb_spec (- e) 0); [|lia]. f_equal; [lia|].
  apply list_fmap_ext. intros _ row _. f_equal. lia.
Qed.

(** With an effective length of 0 the slice [t[:, -0:]] is [t[:, 0:]]:
    the whole array. *)
Lemma cut_left_zero (t : tensor Z) : cut true 0 t = t.
Proof.
  assert (Hadj : ∀ m, adjust_index m 0 = 0)
    by (intros m; unfold adjust_index; simpl; lia).
  destruct t as [n rs]. unfold cut, slice_cols_from, slice_from.
  replace (neg 0) with 0%Z by reflexivity.
  cbn [ncols rows]. rewrite Hadj. f_equal; [lia|].
  rewrite <- (list_fmap_id rs) at 2.
  apply list_fmap_ext. intros _ row _. by rewrite Hadj.
Qed.

Lemma effective_len_all_pad (mask : tensor Z) :
  rows mask ≠ [] →
  Forall (Forall (λ x, x = 0%Z)) (rows mask) →
  max_all (sum_dim1 mask) = Ok 0%Z.
Proof.
  intros Hne Hzero. unfold sum_dim1.
  assert (Hsum : ∀ row, Forall (λ x, x = 0%Z) row → sum_row row = 0%Z).
  { unfold sum_row. induction 1 as [|x row -> _ IH]; [done|]. exact IH. }
  assert (Hall : Forall (λ s, s = 0%Z) (sum_row <$> rows mask)).
  { apply Forall_fmap. eapply Forall_impl; [exact Hzero|]. exact Hsum. }
  destruct (rows mask) as [|row rs]; [done|].
  rewrite fmap_cons in *. apply Forall_cons in Hall as [-> Hall].
  simpl. f_equal. clear -Hall.
  induction Hall as [|s v -> _ IH]; [done|]. exact IH.
Qed.

(** A batch whose rows are all padding, trimmed from the left: the named
    array comes back whole. *)
Lemma cut_to_effective_len_all_pad_left (h : heap) (r : ref)
    (d : gmap string (tensor Z)) (mask : tensor Z) (keys : list string) :
  h !! r = Some d →
  d !! "attention_mask"%string = Some mask →
  rows mask ≠ [] →
  Forall (Forall (λ x, x = 0%Z)) (rows mask) →
  Forall (λ k, is_Some (d !! k)) keys →
  ∃ dres,
    cut_to_effective_len r keys true h = (h ++ [dres], Ok (length h)) ∧
    ∀ k, dres !! k = d !! k.
Proof.
  intros Hr Hmask Hne Hzero Hkeys.
  rewrite (cut_to_effective_len_run h r d keys true Hr), Hmask.
  rewrite effective_len_all_pad by done.
  eexists. rewrite cut_loop_ok by done. split; [done|].
  intros k. destruct (decide (k ∈ keys)) as [Hin|Hout].
  - destruct (Forall_forall (λ k, is_Some (d !! k)) keys) as [Hall _].
    destruct (Hall Hkeys k Hin) as [t Ht].
    rewrite (cut_loop_listed d _ keys k t Hkeys Ht) by auto.
    by rewrite cut_left_zero.
  - by apply cut_loop_frame.
Qed.

(** C7.  A dict whose mask is all zeros, trimmed with [cut_left] true and
    with [cut_left] false: the effective length is 0 in both calls; the
    second returns an array of sequence length 0, the first returns the
    array at its full sequence length 2. *)
Theorem cut_to_effective_len_all_pad_cut_left_keeps_length :
  let d : gmap string (tensor Z) :=
    <["attention_mask"%string := Tensor 2 [[0; 0]%Z]]>
      (<["input_ids"%string := Tensor 2 [[0; 0]%Z]]> ∅) in
  max_all (sum_dim1 (Tensor 2 [[0; 0]%Z])) = Ok 0%Z ∧
  (∃ h' dres,
     cut_to_effective_len 0 ["input_ids"%string] false [d] = (h', Ok 1) ∧
     h' !! 1 = Some dres ∧
     dres !! "input_ids"%string = Some (Tensor 0 [[]])) ∧
  (∃ h' dres,
     cut_to_effective_len 0 ["input_ids"%string] true [d] = (h', Ok 1) ∧
     h' !! 1 = Some dres ∧
     dres !! "input_ids"%string = Some (Tensor 2 [[0; 0]%Z])).
Proof.
  intros d. split; [reflexivity|].
  split; eexists _, _; (split; [|split]);
    [rewrite (cut_to_effective_len_run [d] 0 d _ _ eq_refl); reflexivity
    |reflexivity|vm_compute; reflexivity
    |rewrite (cut_to_effective_len_run [d] 0 d _ _ eq_refl); reflexivity
    |reflexivity|vm_compute; reflexivity].
Qed.

(** C8, as stated, fails: the mask has sequence length 3, the named array
    sequence length 5, and the call returns a dict instead of raising. *)
Lemma cut_to_effective_len_mismatch_returns :
  let mask := Tensor 3 [[1; 1; 1]%Z] in
  let ids := Tensor 5 [[11; 12; 13; 14; 15]%Z] in
  let d : gmap string (tensor Z) :=
    <["attention_mask"%string := mask]> (<["input_ids"%string := ids]> ∅) in
  ncols ids ≠ ncols mask ∧
  (cut_to_effective_len 0 ["input_ids"%string] false [d]).2 = Ok 1 ∧
  ¬ ∃ h' e,
      cut_to_effective_len 0 ["input_ids"%string] false [d] = (h', Raise e).
Proof.
  intros mask ids d.
  assert (Hrun : (cut_to_effective_len 0 ["input_ids"%string] false [d]).2
                 = Ok 1).
  { rewrite (cut_to_effective_len_run [d] 0 d _ _ eq_refl). reflexivity. }
  split; [simpl; lia|]. split; [exact Hrun|].
  intros (h' & e & Hraise). rewrite Hraise in Hrun. discriminate.
Qed.

(** C8, amended.  No sequence dimension is compared.  With a mask of at
    least one row and every listed key in the dict, the call returns a new
    dict whatever the lengths of the named arrays: trimmed from the right
    (and a non-negative effective length) an array keeps its leftmost
    columns, trimmed from the left (and a positive effective length) its
    rightmost columns, in both cases the effective length or its own
    length, whichever is smaller. *)
Theorem cut_to_effective_len_no_shape_check (h : heap) (r : ref)
    (d : gmap string (tensor Z)) (mask : tensor Z) (keys : list string)
    (cut_left : bool) :
  h !! r = Some d →
  d !! "attention_mask"%string = Some mask →
  rows mask ≠ [] →
  Forall (λ k, is_Some (d !! k)) keys →
  ∃ e dres,
    max_all (sum_dim1 mask) = Ok e ∧
    cut_to_effective_len r keys cut_left h = (h ++ [dres], Ok (length h)) ∧
    ∀ k t, k ∈ keys → d !! k = Some t →
      (cut_left = false → (0 ≤ e)%Z →
         dres !! k = Some (Tensor (Nat.min (Z.to_nat e) (ncols t))
                             (take (Z.to_nat e) <$> rows t))) ∧
      (cut_left = true → (0 < e)%Z →
         dres !! k = Some (Tensor (Nat.min (Z.to_nat e) (ncols t))
                             ((λ row, drop (length row - Z.to_nat e) row)
                                <$> rows t))).
Proof.
  intros Hr Hmask Hne Hkeys.
  destruct (effective_len_defined mask Hne) as (e & He & Hrange).
  exists e. eexists. split; [exact He|].
  rewrite (cut_to_effective_len_run h r d keys cut_left Hr), Hmask, He.
  rewrite cut_loop_ok by done. split; [done|].
  intros k t Hin Ht.
  rewrite (cut_loop_listed d _ keys k t Hkeys Ht) by auto.
  split; intros -> Hpos.
  - by rewrite cut_right_closed.
  - by rewrite cut_left_closed by lia.
Qed.

Lemma cut_to_effective_len_no_shape_check_witness :
  let mask := Tensor 3 [[1; 1; 1]%Z] in
  let ids := Tensor 5 [[11; 12; 13; 14; 15]%Z] in
  let d : gmap string (tensor Z) :=
    <["attention_mask"%string := mask]> (<["input_ids"%string := ids]> ∅) in
  ∃ e dres,
    max_all (sum_dim1 mask) = Ok e ∧
    cut_to_effective_len 0 ["input_ids"%string] true [d]
      = ([d] ++ [dres], Ok 1) ∧
    ∀ k t, k ∈ ["input_ids"%string] → d !! k = Some t →
      (true = false → (0 ≤ e)%Z →
         dres !! k = Some (Tensor (Nat.min (Z.to_nat e) (ncols t))
                             (take (Z.to_nat e) <$> rows t))) ∧
      (true = true → (0 < e)%Z →
         dres !! k = Some (Tensor (Nat.min (Z.to_nat e) (ncols t))
                             ((λ row, drop (length row - Z.to_nat e) row)
                                <$> rows t))).
Proof.
  intros mask ids d.
  apply (cut_to_effective_len_no_shape_check [d] 0 d mask
           ["input_ids"%string] true).
  - reflexivity.
  - reflexivity.
  - discriminate.
  - repeat constructor. exists ids. reflexivity.
Defined.

(** C10.  The call mutates no dict of the store, its input among them.
    When it returns, the result is a new dict that has every key of the
    input, and every entry whose key is not listed is the input's tensor;
    and it does return when the mask is there with at least one row and the
    listed keys are in the dict. *)
Theorem cut_to_effective_len_frame (h : heap) (r : ref)
    (d : gmap string (tensor Z)) (keys : list string) (cut_left : bool) :
  h !! r = Some d →
  (∀ r' d', h !! r' = Some d' →
     (cut_to_effective_len r keys cut_left h).1 !! r' = Some d') ∧
  (∀ out, (cut_to_effective_len r keys cut_left h).2 = Ok out →
     out ≠ r ∧
     ∃ dres,
       (cut_to_effective_len r keys cut_left h).1 !! out = Some dres ∧
       (∀ k, is_Some (d !! k) → is_Some (dres !! k)) ∧
       (∀ k, k ∉ keys → dres !! k = d !! k)) ∧
  (∀ mask, d !! "attention_mask"%string = Some mask → rows mask ≠ [] →
     Forall (λ k, is_Some (d !! k)) keys →
     ∃ out, (cut_to_effective_len r keys cut_left h).2 = Ok out).
Proof.
  intros Hr. rewrite (cut_to_effective_len_run h r d keys cut_left Hr).
  split; [|split].
  - intros r' d' Hr'.
    destruct (d !! "attention_mask"%string) as [mask|]; [|done].
    destruct (max_all (sum_dim1 mask)) as [e|err]; [|done].
    by apply lookup_app_l_Some.
  - intros out Hout.
    destruct (d !! "attention_mask"%string) as [mask|]; [|done].
    destruct (max_all (sum_dim1 mask)) as [e|err]; [|done].
    cbn [fst snd] in *.
    destruct (cut_loop d (cut cut_left e) keys d).2 as [[]|err] eqn:Hloop;
      [|done].
    injection Hout as <-.
    split; [apply lookup_lt_Some in Hr; lia|].
    eexists. split; [apply list_lookup_middle; done|].
    split.
    + intros k Hk. by apply cut_loop_keeps_keys.
    + intros k Hk. by apply cut_loop_frame.
  - intros mask Hmask Hne Hkeys. rewrite Hmask.
    destruct (effective_len_defined mask Hne) as (e & -> & _).
    cbn [snd]. rewrite cut_loop_ok by done. eauto.
Qed.

Lemma cut_to_effective_len_frame_witness :
  let mask := Tensor 3 [[0; 1; 1]%Z] in
  let ids := Tensor 3 [[0; 12; 13]%Z] in
  let d : gmap string (tensor Z) :=
    <["attention_mask"%string := mask]> (<["input_ids"%string := ids]> ∅) in
  (cut_to_effective_len 0 ["input_ids"%string] true [d]).1 !! 0 = Some d.
Proof.
  intros mask ids d.
  apply (proj1 (cut_to_effective_len_frame [d] 0 d ["input_ids"%string] true
                  eq_refl) 0 d).
  reflexivity.
Defined.

(** * Further properties of the helper *)

(** ** Pad-side conversion: layout, idempotence, co-indexed arrays *)

Lemma filter_pad_is_replicate pad (row : list Z) :
  filter (λ x, x = pad) row
  = replicate (length (filter (λ x, x = pad) row)) pad.
Proof.
  induction row as [|x row IH]; [done|].
  rewrite filter_cons. destruct (decide (x = pad)) as [->|]; [|done].
  simpl. by rewrite <- IH.
Qed.

Lemma length_stable_group pad b (row : list Z) :
  length (stable_group pad b row) = length row.
Proof.
  unfold stable_group.
  by rewrite (Permutation_length (filter_app_complement _ row)).
Qed.

(** The converted array is in the requested layout: a row of the result is
    the pads of the input row as one block, at the left when padding to the
    left and at the right otherwise, next to its real tokens in their
    order. *)
Theorem convert_pad_structure_layout (config : TensorConfig) (t : tensor Z)
    (pad_to_left : bool) :
  ∃ out idx,
    convert_pad_structure config t pad_to_left = Ok (out, idx) ∧
    ∀ r row, rows t !! r = Some row →
      rows out !! r =
        Some (if pad_to_left
              then replicate
                     (length (filter (λ x, x = pad_token_id config) row))
                     (pad_token_id config)
                   ++ filter (λ x, x ≠ pad_token_id config) row
              else filter (λ x, x ≠ pad_token_id config) row
                   ++ replicate
                        (length (filter (λ x, x = pad_token_id config) row))
                        (pad_token_id config)).
Proof.
  eexists _, _. split; [apply convert_pad_structure_rows|].
  intros r row Hr. cbn [rows]. rewrite list_lookup_fmap, Hr. simpl. f_equal.
  destruct pad_to_left.
  - by rewrite stable_group_left, <- filter_pad_is_replicate.
  - by rewrite stable_group_right, <- filter_pad_is_replicate.
Qed.

(** The conversion keeps arrays rectangular, the index array included. *)
Theorem convert_pad_structure_wf (config : TensorConfig) (t : tensor Z)
    (pad_to_left : bool) :
  wf t →
  ∃ out idx,
    convert_pad_structure config t pad_to_left = Ok (out, idx) ∧
    ncols out = ncols t ∧ nrows out = nrows t ∧ wf out ∧
    ncols idx = ncols t ∧ nrows idx = nrows t ∧ wf idx.
Proof.
  intros Hwf. eexists _, _. split; [apply convert_pad_structure_rows|].
  unfold wf, nrows in *. cbn [ncols rows]. rewrite !length_fmap.
  split_and!; try done.
  - apply Forall_fmap. eapply Forall_impl; [exact Hwf|].
    intros row Hrow. simpl. by rewrite length_stable_group.
  - apply Forall_fmap. eapply Forall_impl; [exact Hwf|].
    intros row Hrow. simpl. unfold stable_index.
    rewrite (Permutation_length (filter_app_complement _ (seq 0 (length row)))).
    by rewrite length_seq.
Qed.

Lemma convert_pad_structure_wf_witness :
  ∃ out idx,
    convert_pad_structure (Build_TensorConfig 0 8 8 8)
      (Tensor 3 [[5; 0; 6]; [0; 0; 7]]%Z) true = Ok (out, idx) ∧
    ncols out = 3 ∧ nrows out = 2 ∧ wf out ∧
    ncols idx = 3 ∧ nrows idx = 2 ∧ wf idx.
Proof.
  apply (convert_pad_structure_wf (Build_TensorConfig 0 8 8 8)
           (Tensor 3 [[5; 0; 6]; [0; 0; 7]]%Z) true).
  repeat constructor.
Defined.

Lemma seq_sorted (n : nat) : ∀ k, StronglySorted lt (seq k n).
Proof.
  induction n as [|n IH]; intros k; [constructor|].
  simpl. constructor; [apply IH|].
  apply Forall_forall. intros j Hj%elem_of_seq. lia.
Qed.

Lemma first_at_grouped pad b (row : list Z) (j : nat) :
  let F := filter (λ x, goes_first pad b x) row in
  j < length row →
  first_at pad b (stable_group pad b row) j ↔ j < length F.
Proof.
  intros F Hj. unfold first_at, stable_group. fold F.
  destruct (decide (j < length F)) as [Hlt|Hge].
  - rewrite lookup_app_l by done.
    destruct (lookup_lt_is_Some_2 F j Hlt) as [x Hx]. rewrite Hx. simpl.
    split; [done|]. intros _. by apply filter_lookup_holds in Hx.
  - rewrite lookup_app_r by lia. split; [|lia].
    destruct (filter _ row !! (j - length F)) as [x|] eqn:Hx; simpl; [|done].
    intros Hfirst. by apply filter_lookup_holds in Hx.
Qed.

Lemma stable_index_grouped pad b (row : list Z) :
  stable_index pad b (stable_group pad b row) = seq 0 (length row).
Proof.
  unfold stable_index. rewrite length_stable_group.
  apply (StronglySorted_unique_strong lt).
  - intros; lia.
  - apply StronglySorted_app. split_and!; try apply filter_seq_sorted.
    intros j1 j2 [H1 Hs1%elem_of_seq]%list_elem_of_filter
                 [H2 Hs2%elem_of_seq]%list_elem_of_filter.
    apply first_at_grouped in H1; [|lia].
    rewrite first_at_grouped in H2 by lia. lia.
  - apply seq_sorted.
  - apply filter_app_complement.
Qed.

Lemma stable_group_idem pad b (row : list Z) :
  stable_group pad b (stable_group pad b row) = stable_group pad b row.
Proof.
  unfold stable_group. rewrite !filter_app.
  rewrite (filter_filter_incl (λ x, goes_first pad b x)) by done.
  rewrite (filter_filter_disjoint (λ x, goes_first pad b x)
             (λ x, ¬ goes_first pad b x)) by tauto.
  rewrite (filter_filter_disjoint (λ x, ¬ goes_first pad b x)
             (λ x, goes_first pad b x)) by tauto.
  rewrite (filter_filter_incl (λ x, ¬ goes_first pad b x)) by done.
  by rewrite app_nil_r.
Qed.

(** Converting twice to the same side changes nothing more: the second
    conversion returns the array it was given, with the identity
    permutation [0, 1, ..., L-1] in every row. *)
Theorem convert_pad_structure_idempotent (config : TensorConfig)
    (t : tensor Z) (pad_to_left : bool) :
  wf t →
  ∃ out idx idx',
    convert_pad_structure config t pad_to_left = Ok (out, idx) ∧
    convert_pad_structure config out pad_to_left = Ok (out, idx') ∧
    rows idx' = replicate (nrows t) (seq 0 (ncols t)).
Proof.
  intros Hwf. eexists _, _, _.
  split; [apply convert_pad_structure_rows|].
  rewrite convert_pad_structure_rows. cbn [ncols rows].
  rewrite <- !list_fmap_compose.
  split.
  - do 3 f_equal. apply list_fmap_ext. intros _ row _. simpl.
    apply stable_group_idem.
  - cbn [rows]. apply list_eq. intros i. rewrite list_lookup_fmap.
    unfold nrows, wf in *.
    destruct (rows t !! i) as [row|] eqn:Hi; simpl.
    + rewrite lookup_replicate_2 by (by eapply lookup_lt_Some).
      rewrite stable_index_grouped.
      by rewrite (Forall_lookup_1 _ _ _ _ Hwf Hi).
    + symmetry. apply lookup_replicate_None. by apply lookup_ge_None_1.
Qed.

Lemma convert_pad_structure_idempotent_witness :
  ∃ out idx idx',
    convert_pad_structure (Build_TensorConfig 0 8 8 8)
      (Tensor 3 [[5; 0; 6]; [0; 0; 7]]%Z) true = Ok (out, idx) ∧
    convert_pad_structure (Build_TensorConfig 0 8 8 8) out true
      = Ok (out, idx') ∧
    rows idx' = replicate 2 (seq 0 3).
Proof.
  apply (convert_pad_structure_idempotent (Build_TensorConfig 0 8 8 8)
           (Tensor 3 [[5; 0; 6]; [0; 0; 7]]%Z) true).
  repeat constructor.
Defined.

Lemma gather_rows_fmap {A B} (f : A → B) (rs : list (list A))
    (idxs : list (list nat)) (outs : list (list A)) :
  gather_rows rs idxs = Some outs →
  gather_rows ((λ r : list A, f <$> r) <$> rs) idxs
  = Some ((λ r : list A, f <$> r) <$> outs).
Proof.
  revert rs outs. induction idxs as [|idx idxs IH]; intros rs outs Hg.
  - destruct rs; simpl in Hg; injection Hg as <-; done.
  - destruct rs as [|row rs]; [done|]. cbn [gather_rows] in Hg.
    destruct (gather_row row idx) as [o|] eqn:Ho; [|done].
    destruct (gather_rows rs idxs) as [os|] eqn:Hos; [|done].
    simpl in Hg. injection Hg as <-.
    rewrite !fmap_cons. cbn [gather_rows].
    rewrite (IH rs os Hos).
    assert (Hrow : gather_row (f <$> row) idx = Some (f <$> o)).
    { unfold gather_row in *. apply mapM_Some_2, Forall2_fmap_r.
      apply mapM_Some_1 in Ho.
      eapply Forall2_impl; [exact Ho|]. intros j y Hj. simpl.
      by rewrite list_lookup_fmap, Hj. }
    by rewrite Hrow.
Qed.

(** The returned indices carry a co-indexed array along: gathering the
    attention mask of the input by them gives the attention mask of the
    converted array. *)
Theorem convert_pad_structure_mask_commutes (config : TensorConfig)
    (t : tensor Z) (pad_to_left : bool) :
  ∃ out idx,
    convert_pad_structure config t pad_to_left = Ok (out, idx) ∧
    gather_dim1 (create_attention_mask config t) idx
      = Ok (create_attention_mask config out).
Proof.
  eexists _, _. split; [apply convert_pad_structure_rows|].
  unfold gather_dim1, create_attention_mask, ne_scalar, map_cells.
  cbn [rows ncols]. rewrite <- !list_fmap_compose.
  pose proof (gather_rows_stable (pad_token_id config) pad_to_left (rows t))
    as Hg.
  apply (gather_rows_fmap
           (λ x : Z, if bool_decide (x ≠ pad_token_id config)
                     then 1%Z else 0%Z)) in Hg.
  rewrite <- list_fmap_compose in Hg.
  assert (Hl : ((λ r : list bool, (λ b : bool, if b then 1%Z else 0%Z) <$> r)
                ∘ (λ r : list Z,
                     (λ x : Z, bool_decide (x ≠ pad_token_id config)) <$> r))
               <$> rows t
               = (λ r : list Z,
                    (λ x : Z, if bool_decide (x ≠ pad_token_id config)
                              then 1%Z else 0%Z) <$> r) <$> rows t).
  { apply list_fmap_ext. intros _ row _. simpl.
    by rewrite <- list_fmap_compose. }
  rewrite Hl, Hg. do 2 f_equal.
  apply list_fmap_ext. intros _ row _. simpl.
  by rewrite <- list_fmap_compose.
Qed.

(** ** Attention mask and position ids of a token array *)

Lemma rows_create_attention_mask (config : TensorConfig) (t : tensor Z) :
  rows (create_attention_mask config t)
  = (λ row : list Z,
       (λ x : Z, if bool_decide (x ≠ pad_token_id config) then 1%Z else 0%Z)
         <$> row) <$> rows t.
Proof.
  unfold create_attention_mask, ne_scalar, map_cells. cbn [rows].
  rewrite <- list_fmap_compose. apply list_fmap_ext. intros _ row _. simpl.
  by rewrite <- list_fmap_compose.
Qed.

Lemma count_mask_ones pad (l : list Z) :
  length (filter (λ y, y = 1%Z)
            ((λ x : Z, if bool_decide (x ≠ pad) then 1%Z else 0%Z) <$> l))
  = length (filter (λ x, x ≠ pad) l).
Proof.
  induction l as [|x l IH]; [done|].
  rewrite fmap_cons, !filter_cons.
  case_bool_decide; destruct (decide (x ≠ pad)); try done;
    rewrite ?decide_True, ?decide_False by done; simpl; by rewrite ?IH.
Qed.

Lemma position_of_tokens_lookup pad (row : list Z) (j : nat) (x : Z) :
  (Z.of_nat (length row) < 2 ^ 63)%Z →
  row !! j = Some x →
  position_row 0
    ((λ x : Z, if bool_decide (x ≠ pad) then 1%Z else 0%Z) <$> row) !! j
  = Some (if decide (x = pad) then 0%Z
          else Z.of_nat (length (filter (λ x, x ≠ pad) (take j row)))).
Proof.
  intros Hlen Hj.
  rewrite (position_row_lookup _ 0%Z j
             (if bool_decide (x ≠ pad) then 1%Z else 0%Z)).
  - f_equal. case_bool_decide; destruct (decide (x = pad)); try done.
    rewrite decide_False by done.
    unfold ones_before. by rewrite <- fmap_take, count_mask_ones.
  - lia.
  - rewrite length_fmap. lia.
  - apply Forall_fmap, Forall_forall. intros y _. simpl.
    case_bool_decide; auto.
  - by rewrite list_lookup_fmap, Hj.
Qed.

(** Position ids computed from the attention mask of a token array: a pad
    token gets 0, a real token gets the number of real tokens to its left
    in the row. *)
Theorem position_ids_of_tokens (config : TensorConfig) (input_ids : tensor Z) :
  Forall (λ row, (Z.of_nat (length row) < 2 ^ 63)%Z) (rows input_ids) →
  ∀ r row, rows input_ids !! r = Some row →
    ∃ prow,
      rows (create_position_ids (create_attention_mask config input_ids)) !! r
        = Some prow ∧
      length prow = length row ∧
      ∀ j x, row !! j = Some x →
        prow !! j =
          Some (if decide (x = pad_token_id config) then 0%Z
                else Z.of_nat
                       (length (filter (λ x, x ≠ pad_token_id config)
                                  (take j row)))).
Proof.
  intros Hlen r row Hr.
  rewrite rows_create_position_ids, rows_create_attention_mask.
  rewrite !list_lookup_fmap, Hr. simpl. eexists. split; [done|].
  split; [by rewrite length_position_row, length_fmap|].
  intros j x Hj. apply position_of_tokens_lookup; [|done].
  exact (Forall_lookup_1 _ _ _ _ Hlen Hr).
Qed.

Lemma position_ids_of_tokens_witness :
  ∃ prow,
    rows (create_position_ids
            (create_attention_mask (Build_TensorConfig 0 8 8 8)
               (Tensor 4 [[0; 7; 0; 9]%Z]))) !! 0 = Some prow ∧
    length prow = 4 ∧
    ∀ j x, [0; 7; 0; 9]%Z !! j = Some x →
      prow !! j =
        Some (if decide (x = 0%Z) then 0%Z
              else Z.of_nat
                     (length (filter (λ x, x ≠ 0%Z) (take j [0; 7; 0; 9]%Z)))).
Proof.
  refine (position_ids_of_tokens (Build_TensorConfig 0 8 8 8)
            (Tensor 4 [[0; 7; 0; 9]%Z]) _ 0 [0; 7; 0; 9]%Z _).
  - repeat constructor; simpl; lia.
  - reflexivity.
Defined.

(** On a left-padded row the position ids are zeros over the pad block and
    then 0, 1, 2, ... over the real tokens. *)
Theorem position_ids_pad_left (config : TensorConfig) (input_ids : tensor Z)
    (r k : nat) (xs : list Z) :
  rows input_ids !! r = Some (replicate k (pad_token_id config) ++ xs) →
  Forall (λ x, x ≠ pad_token_id config) xs →
  (Z.of_nat (k + length xs) < 2 ^ 63)%Z →
  rows (create_position_ids (create_attention_mask config input_ids)) !! r
  = Some (replicate k 0%Z ++ (Z.of_nat <$> seq 0 (length xs))).
Proof.
  intros Hr Hxs Hlen.
  rewrite rows_create_position_ids, rows_create_attention_mask.
  rewrite !list_lookup_fmap, Hr. simpl. f_equal.
  set (pad := pad_token_id config) in *.
  set (row := replicate k pad ++ xs).
  assert (Hrowlen : length row = k + length xs)
    by (unfold row; rewrite length_app, length_replicate; lia).
  apply list_eq. intros j.
  destruct (row !! j) as [x|] eqn:Hj.
  - rewrite (position_of_tokens_lookup pad row j x) by (rewrite ?Hrowlen; done).
    unfold row in Hj. apply lookup_app_Some in Hj as [Hj|[Hge Hj]].
    + apply lookup_replicate in Hj as [-> Hlt].
      rewrite decide_True by done.
      rewrite lookup_app_l by (by rewrite length_replicate).
      by rewrite lookup_replicate_2.
    + rewrite length_replicate in Hge, Hj.
      rewrite decide_False
        by (exact (Forall_lookup_1 _ _ _ _ Hxs Hj)).
      rewrite lookup_app_r by (rewrite length_replicate; lia).
      rewrite length_replicate, list_lookup_fmap.
      rewrite lookup_seq_lt by (by eapply lookup_lt_Some). simpl.
      do 2 f_equal. unfold row.
      rewrite take_app, length_replicate, filter_app.
      rewrite take_replicate, filter_real_replicate. simpl.
      rewrite filter_real_all, length_take.
      * apply lookup_lt_Some in Hj. lia.
      * by apply Forall_take.
  - apply lookup_ge_None_1 in Hj.
    rewrite !lookup_ge_None_2; [done| |].
    + rewrite length_app, length_replicate, length_fmap, length_seq. lia.
    + rewrite length_position_row, length_fmap. lia.
Qed.

Lemma position_ids_pad_left_witness :
  rows (create_position_ids
          (create_attention_mask (Build_TensorConfig 0 8 8 8)
             (Tensor 4 [[0; 0; 7; 9]%Z]))) !! 0
  = Some (replicate 2 0%Z ++ (Z.of_nat <$> seq 0 2)).
Proof.
  apply (position_ids_pad_left (Build_TensorConfig 0 8 8 8)
           (Tensor 4 [[0; 0; 7; 9]%Z]) 0 2 [7; 9]%Z).
  - reflexivity.
  - repeat constructor; simpl; lia.
  - simpl. lia.
Defined.

(** ** Effective-length trimming: failures, key set, shapes, real tokens *)

(** A dict without an attention mask, or with a mask of no rows (an empty
    batch), makes the call raise before the copy is made: the store is left
    exactly as it was. *)
Theorem cut_to_effective_len_fails_before_copy (h : heap) (r : ref)
    (d : gmap string (tensor Z)) (keys : list string) (cut_left : bool) :
  h !! r = Some d →
  (d !! "attention_mask"%string = None →
     cut_to_effective_len r keys cut_left h
       = (h, Raise (KeyError "attention_mask"))) ∧
  (∀ mask, d !! "attention_mask"%string = Some mask → rows mask = [] →
     cut_to_effective_len r keys cut_left h = (h, Raise RuntimeError)).
Proof.
  intros Hr. rewrite (cut_to_effective_len_run h r d keys cut_left Hr).
  split.
  - by intros ->.
  - intros mask -> Hrows. unfold sum_dim1. by rewrite Hrows.
Qed.

Lemma cut_to_effective_len_fails_before_copy_witness :
  cut_to_effective_len 0 ["input_ids"%string] true
    [<["attention_mask"%string := Tensor 4 []]>
       (<["input_ids"%string := Tensor 4 []]> ∅)]
  = ([<["attention_mask"%string := Tensor 4 []]>
        (<["input_ids"%string := Tensor 4 []]> ∅)], Raise RuntimeError).
Proof.
  apply (proj2 (cut_to_effective_len_fails_before_copy
                  [<["attention_mask"%string := Tensor 4 []]>
                     (<["input_ids"%string := Tensor 4 []]> ∅)] 0 _
                  ["input_ids"%string] true eq_refl) (Tensor 4 []));
    reflexivity.
Defined.

Lemma cut_loop_missing (d : gmap string (tensor Z)) (f : tensor Z → tensor Z)
    (before after : list string) (key : string) :
  Forall (λ k, is_Some (d !! k)) before →
  d !! key = None →
  ∀ dres, (cut_loop d f (before ++ key :: after) dres).2
          = Raise (KeyError key).
Proof.
  intros Hbefore Hkey.
  induction Hbefore as [|k before [t Hk] _ IH]; intros dres; simpl.
  - by rewrite Hkey.
  - rewrite Hk. apply IH.
Qed.

(** A listed key that the dict does not have makes the call raise
    [KeyError] for the first such key; the input dict is still in the store,
    unchanged. *)
Theorem cut_to_effective_len_missing_key (h : heap) (r : ref)
    (d : gmap string (tensor Z)) (mask : tensor Z)
    (before after : list string) (key : string) (cut_left : bool) :
  h !! r = Some d →
  d !! "attention_mask"%string = Some mask →
  rows mask ≠ [] →
  Forall (λ k, is_Some (d !! k)) before →
  d !! key = None →
  (cut_to_effective_len r (before ++ key :: after) cut_left h).2
    = Raise (KeyError key) ∧
  (cut_to_effective_len r (before ++ key :: after) cut_left h).1 !! r
    = Some d.
Proof.
  intros Hr Hmask Hne Hbefore Hkey.
  rewrite (cut_to_effective_len_run h r d _ cut_left Hr), Hmask.
  destruct (effective_len_defined mask Hne) as (e & -> & _).
  cbn [fst snd]. rewrite cut_loop_missing by done.
  split; [done|]. by apply lookup_app_l_Some.
Qed.

Lemma cut_to_effective_len_missing_key_witness :
  let d : gmap string (tensor Z) :=
    <["attention_mask"%string := Tensor 2 [[0; 1]%Z]]>
      (<["input_ids"%string := Tensor 2 [[0; 5]%Z]]> ∅) in
  (cut_to_effective_len 0
     (["input_ids"%string] ++ "info_mask"%string :: ["attention_mask"%string])
     true [d]).2
    = Raise (KeyError "info_mask") ∧
  (cut_to_effective_len 0
     (["input_ids"%string] ++ "info_mask"%string :: ["attention_mask"%string])
     true [d]).1 !! 0
    = Some d.
Proof.
  intros d.
  apply (cut_to_effective_len_missing_key [d] 0 d (Tensor 2 [[0; 1]%Z])
           ["input_ids"%string] ["attention_mask"%string]
           "info_mask"%string true).
  - reflexivity.
  - reflexivity.
  - discriminate.
  - repeat constructor. by exists (Tensor 2 [[0; 5]%Z]).
  - reflexivity.
Defined.

Lemma cut_loop_same_keys (d : gmap string (tensor Z))
    (f : tensor Z → tensor Z) (keys : list string) :
  Forall (λ k, is_Some (d !! k)) keys →
  ∀ dres, dom dres = dom d → dom (cut_loop d f keys dres).1 = dom d.
Proof.
  induction 1 as [|key keys [t Hk] _ IH]; intros dres Hdom; [done|].
  simpl. rewrite Hk. apply IH.
  rewrite dom_insert_L, Hdom.
  apply subseteq_union_1_L, singleton_subseteq_l, elem_of_dom. eauto.
Qed.

(** When the call returns, the new dict has exactly the keys of the
    input. *)
Theorem cut_to_effective_len_same_keys (h : heap) (r : ref)
    (d : gmap string (tensor Z)) (mask : tensor Z) (keys : list string)
    (cut_left : bool) :
  h !! r = Some d →
  d !! "attention_mask"%string = Some mask →
  rows mask ≠ [] →
  Forall (λ k, is_Some (d !! k)) keys →
  ∃ dres,
    cut_to_effective_len r keys cut_left h = (h ++ [dres], Ok (length h)) ∧
    dom dres = dom d.
Proof.
  intros Hr Hmask Hne Hkeys.
  rewrite (cut_to_effective_len_run h r d keys cut_left Hr), Hmask.
  destruct (effective_len_defined mask Hne) as (e & -> & _).
  rewrite cut_loop_ok by done. eexists. split; [done|].
  by apply cut_loop_same_keys.
Qed.

Lemma cut_to_effective_len_same_keys_witness :
  let d : gmap string (tensor Z) :=
    <["attention_mask"%string := Tensor 2 [[0; 1]%Z]]>
      (<["input_ids"%string := Tensor 2 [[0; 5]%Z]]> ∅) in
  ∃ dres,
    cut_to_effective_len 0 ["input_ids"%string] true [d]
      = ([d] ++ [dres], Ok 1) ∧
    dom dres = dom d.
Proof.
  intros d.
  apply (cut_to_effective_len_same_keys [d] 0 d (Tensor 2 [[0; 1]%Z])
           ["input_ids"%string] true).
  - reflexivity.
  - reflexivity.
  - discriminate.
  - repeat constructor. by exists (Tensor 2 [[0; 5]%Z]).
Defined.

Lemma adjust_index_le (n : nat) (z : Z) : adjust_index n z ≤ n.
Proof. unfold adjust_index. destruct (Z.ltb_spec z 0); lia. Qed.

Lemma cut_wf (cut_left : bool) (e : Z) (t : tensor Z) :
  wf t →
  wf (cut cut_left e t) ∧ nrows (cut cut_left e t) = nrows t ∧
  ncols (cut cut_left e t) ≤ ncols t.
Proof.
  intros Hwf. unfold wf, nrows, cut in *.
  destruct cut_left; cbn [slice_cols_from slice_cols_to ncols rows];
    rewrite length_fmap; (split_and!; [|done|]).
  - apply Forall_fmap. eapply Forall_impl; [exact Hwf|].
    intros row Hrow. simpl. unfold slice_from.
    rewrite length_drop, Hrow. done.
  - lia.
  - apply Forall_fmap. eapply Forall_impl; [exact Hwf|].
    intros row Hrow. simpl. unfold slice_to.
    pose proof (adjust_index_le (ncols t) e).
    rewrite length_take, Hrow. lia.
  - apply adjust_index_le.
Qed.

(** Trimming keeps a named array rectangular, with its row count and with
    no more columns than it had. *)
Theorem cut_to_effective_len_wf (h : heap) (r : ref)
    (d : gmap string (tensor Z)) (mask : tensor Z) (keys : list string)
    (cut_left : bool) :
  h !! r = Some d →
  d !! "attention_mask"%string = Some mask →
  rows mask ≠ [] →
  Forall (λ k, is_Some (d !! k)) keys →
  ∃ dres,
    cut_to_effective_len r keys cut_left h = (h ++ [dres], Ok (length h)) ∧
    ∀ k t, k ∈ keys → d !! k = Some t → wf t →
      ∃ t', dres !! k = Some t' ∧ wf t' ∧ nrows t' = nrows t ∧
            ncols t' ≤ ncols t.
Proof.
  intros Hr Hmask Hne Hkeys.
  rewrite (cut_to_effective_len_run h r d keys cut_left Hr), Hmask.
  destruct (effective_len_defined mask Hne) as (e & -> & _).
  rewrite cut_loop_ok by done. eexists. split; [done|].
  intros k t Hin Ht Hwf. eexists.
  split; [by apply (cut_loop_listed d _ keys k t Hkeys Ht); left|].
  by apply cut_wf.
Qed.

Lemma cut_to_effective_len_wf_witness :
  let d : gmap string (tensor Z) :=
    <["attention_mask"%string := Tensor 2 [[0; 1]%Z]]>
      (<["input_ids"%string := Tensor 2 [[0; 5]%Z]]> ∅) in
  ∃ dres,
    cut_to_effective_len 0 ["input_ids"%string] true [d]
      = ([d] ++ [dres], Ok 1) ∧
    ∀ k t, k ∈ ["input_ids"%string] → d !! k = Some t → wf t →
      ∃ t', dres !! k = Some t' ∧ wf t' ∧ nrows t' = nrows t ∧
            ncols t' ≤ ncols t.
Proof.
  intros d.
  apply (cut_to_effective_len_wf [d] 0 d (Tensor 2 [[0; 1]%Z])
           ["input_ids"%string] true).
  - reflexivity.
  - reflexivity.
  - discriminate.
  - repeat constructor. by exists (Tensor 2 [[0; 5]%Z]).
Defined.

Lemma sum_row_bits (row : list Z) :
  Forall (λ x, x = 0%Z ∨ x = 1%Z) row →
  (Z.of_nat (length row) < 2 ^ 63)%Z →
  sum_row row = Z.of_nat (length (filter (λ x, x = 1%Z) row)).
Proof.
  intros Hbits Hlen. unfold sum_row.
  assert (Hgen : ∀ acc, (0 ≤ acc)%Z →
            (acc + Z.of_nat (length row) < 2 ^ 63)%Z →
            foldl (λ acc x, wrap64 (acc + x)) acc row
            = (acc + Z.of_nat (length (filter (λ x, x = 1%Z) row)))%Z).
  { clear Hlen. induction Hbits as [|x row Hx _ IH]; intros acc Hacc Hlen.
    - simpl. lia.
    - simpl in *. rewrite wrap64_id by lia.
      rewrite IH by lia. rewrite filter_cons.
      destruct Hx as [-> | ->]; destruct (decide _); simpl; lia. }
  rewrite Hgen by lia. lia.
Qed.

Lemma foldl_max_ge (v : list Z) :
  ∀ x, (x ≤ foldl Z.max x v)%Z ∧ Forall (λ y, (y ≤ foldl Z.max x v)%Z) v.
Proof.
  induction v as [|y v IH]; intros x; simpl; [split; [lia|constructor]|].
  destruct (IH (Z.max x y)) as [Hx Hv].
  split; [lia|]. constructor; [lia|done].
Qed.

Lemma max_all_ge (v : list Z) (e : Z) :
  max_all v = Ok e → Forall (λ y, (y ≤ e)%Z) v.
Proof.
  destruct v as [|x v]; [done|]. simpl. intros [= <-].
  destruct (foldl_max_ge v x). by constructor.
Qed.

Lemma effective_len_covers (mask : tensor Z) (e : Z) (i : nat)
    (mrow : list Z) :
  max_all (sum_dim1 mask) = Ok e →
  rows mask !! i = Some mrow →
  (sum_row mrow ≤ e)%Z.
Proof.
  intros He Hi. apply max_all_ge in He.
  apply (Forall_lookup_1 _ _ i (sum_row mrow)) in He; [done|].
  unfold sum_dim1. by rewrite list_lookup_fmap, Hi.
Qed.

Lemma sum_row_left_mask (z o : nat) :
  (Z.of_nat (z + o) < 2 ^ 63)%Z →
  sum_row (replicate z 0%Z ++ replicate o 1%Z) = Z.of_nat o.
Proof.
  intros Hlen. rewrite sum_row_bits.
  - rewrite filter_app.
    assert (H0 : filter (λ x : Z, x = 1%Z) (replicate z 0%Z) = []).
    { clear. induction z as [|z IH]; [done|].
      simpl. by rewrite filter_cons, decide_False by lia. }
    rewrite H0, filter_pad_replicate. simpl. by rewrite length_replicate.
  - apply Forall_app. split; apply Forall_replicate; auto.
  - rewrite length_app, !length_replicate. lia.
Qed.

Lemma sum_row_right_mask (z o : nat) :
  (Z.of_nat (z + o) < 2 ^ 63)%Z →
  sum_row (replicate o 1%Z ++ replicate z 0%Z) = Z.of_nat o.
Proof.
  intros Hlen. rewrite sum_row_bits.
  - rewrite filter_app.
    assert (H0 : filter (λ x : Z, x = 1%Z) (replicate z 0%Z) = []).
    { clear. induction z as [|z IH]; [done|].
      simpl. by rewrite filter_cons, decide_False by lia. }
    by rewrite H0, filter_pad_replicate, app_nil_r, length_replicate.
  - apply Forall_app. split; apply Forall_replicate; auto.
  - rewrite length_app, !length_replicate. lia.
Qed.

(** Trimming a left-padded batch from the left removes only masked-out
    columns: in every row of every named array that is as long as its mask
    row, what is dropped is a prefix over which the mask is 0, so no real
    token is lost. *)
Theorem cut_to_effective_len_left_keeps_real (h : heap) (r : ref)
    (d : gmap string (tensor Z)) (mask : tensor Z) (keys : list string) :
  h !! r = Some d →
  d !! "attention_mask"%string = Some mask →
  rows mask ≠ [] →
  Forall (λ k, is_Some (d !! k)) keys →
  Forall (λ mrow, ∃ z o, mrow = replicate z 0%Z ++ replicate o 1%Z ∧
                         (Z.of_nat (z + o) < 2 ^ 63)%Z) (rows mask) →
  ∃ dres,
    cut_to_effective_len r keys true h = (h ++ [dres], Ok (length h)) ∧
    ∀ k t, k ∈ keys → d !! k = Some t →
      ∃ t', dres !! k = Some t' ∧
        ∀ i trow mrow,
          rows t !! i = Some trow → rows mask !! i = Some mrow →
          length trow = length mrow →
          ∃ n, rows t' !! i = Some (drop n trow) ∧
               take n mrow = replicate n 0%Z.
Proof.
  intros Hr Hmask Hne Hkeys Hlayout.
  rewrite (cut_to_effective_len_run h r d keys true Hr), Hmask.
  destruct (effective_len_defined mask Hne) as (e & He & Hrange).
  rewrite He, cut_loop_ok by done. eexists. split; [done|].
  intros k t Hin Ht. eexists.
  split; [by apply (cut_loop_listed d _ keys k t Hkeys Ht); left|].
  intros i trow mrow Hi Hm Hlen.
  destruct (Forall_lookup_1 _ _ _ _ Hlayout Hm) as (z & o & -> & Hzo).
  pose proof (effective_len_covers mask e i _ He Hm) as Hcov.
  rewrite sum_row_left_mask in Hcov by done.
  rewrite length_app, !length_replicate in Hlen.
  destruct (decide (e = 0%Z)) as [->|Hpos].
  - exists 0. rewrite cut_left_zero. by rewrite drop_0.
  - rewrite cut_left_closed by lia. cbn [rows].
    exists (length trow - Z.to_nat e).
    rewrite list_lookup_fmap, Hi. split; [done|].
    rewrite take_app_le by (rewrite length_replicate; lia).
    rewrite take_replicate. f_equal. lia.
Qed.

Lemma cut_to_effective_len_left_keeps_real_witness :
  let mask := Tensor 3 [[0; 0; 1]; [0; 1; 1]]%Z in
  let ids := Tensor 3 [[0; 0; 5]; [0; 6; 7]]%Z in
  let d : gmap string (tensor Z) :=
    <["attention_mask"%string := mask]> (<["input_ids"%string := ids]> ∅) in
  ∃ dres,
    cut_to_effective_len 0 ["input_ids"%string] true [d]
      = ([d] ++ [dres], Ok 1) ∧
    ∀ k t, k ∈ ["input_ids"%string] → d !! k = Some t →
      ∃ t', dres !! k = Some t' ∧
        ∀ i trow mrow,
          rows t !! i = Some trow → rows mask !! i = Some mrow →
          length trow = length mrow →
          ∃ n, rows t' !! i = Some (drop n trow) ∧
               take n mrow = replicate n 0%Z.
Proof.
  intros mask ids d.
  apply (cut_to_effective_len_left_keeps_real [d] 0 d mask
           ["input_ids"%string]).
  - reflexivity.
  - reflexivity.
  - discriminate.
  - repeat constructor. by exists ids.
  - repeat constructor.
    + exists 2, 1. split; [reflexivity|simpl; lia].
    + exists 1, 2. split; [reflexivity|simpl; lia].
Defined.

(** Trimming a right-padded batch from the right removes only masked-out
    columns: what is cut off a row is a suffix over which the mask is 0. *)
Theorem cut_to_effective_len_right_keeps_real (h : heap) (r : ref)
    (d : gmap string (tensor Z)) (mask : tensor Z) (keys : list string) :
  h !! r = Some d →
  d !! "attention_mask"%string = Some mask →
  rows mask ≠ [] →
  Forall (λ k, is_Some (d !! k)) keys →
  Forall (λ mrow, ∃ z o, mrow = replicate o 1%Z ++ replicate z 0%Z ∧
                         (Z.of_nat (z + o) < 2 ^ 63)%Z) (rows mask) →
  ∃ dres,
    cut_to_effective_len r keys false h = (h ++ [dres], Ok (length h)) ∧
    ∀ k t, k ∈ keys → d !! k = Some t →
      ∃ t', dres !! k = Some t' ∧
        ∀ i trow mrow,
          rows t !! i = Some trow → rows mask !! i = Some mrow →
          length trow = length mrow →
          ∃ n, rows t' !! i = Some (take n trow) ∧
               drop n mrow = replicate (length mrow - n) 0%Z.
Proof.
  intros Hr Hmask Hne Hkeys Hlayout.
  rewrite (cut_to_effective_len_run h r d keys false Hr), Hmask.
  destruct (effective_len_defined mask Hne) as (e & He & Hrange).
  rewrite He, cut_loop_ok by done. eexists. split; [done|].
  intros k t Hin Ht. eexists.
  split; [by apply (cut_loop_listed d _ keys k t Hkeys Ht); left|].
  intros i trow mrow Hi Hm Hlen.
  destruct (Forall_lookup_1 _ _ _ _ Hlayout Hm) as (z & o & -> & Hzo).
  pose proof (effective_len_covers mask e i _ He Hm) as Hcov.
  rewrite sum_row_right_mask in Hcov by done.
  rewrite cut_right_closed by lia. cbn [rows].
  exists (Z.to_nat e). rewrite list_lookup_fmap, Hi. split; [done|].
  rewrite drop_app_ge by (rewrite length_replicate; lia).
  rewrite drop_replicate, length_app, !length_replicate. f_equal. lia.
Qed.

Lemma cut_to_effective_len_right_keeps_real_witness :
  let mask := Tensor 3 [[1; 0; 0]; [1; 1; 0]]%Z in
  let ids := Tensor 3 [[5; 0; 0]; [6; 7; 0]]%Z in
  let d : gmap string (tensor Z) :=
    <["attention_mask"%string := mask]> (<["input_ids"%string := ids]> ∅) in
  ∃ dres,
    cut_to_effective_len 0 ["input_ids"%string] false [d]
      = ([d] ++ [dres], Ok 1) ∧
    ∀ k t, k ∈ ["input_ids"%string] → d !! k = Some t →
      ∃ t', dres !! k = Some t' ∧
        ∀ i trow mrow,
          rows t !! i = Some trow → rows mask !! i = Some mrow →
          length trow = length mrow →
          ∃ n, rows t' !! i = Some (take n trow) ∧
               drop n mrow = replicate (length mrow - n) 0%Z.
Proof.
  intros mask ids d.
  apply (cut_to_effective_len_right_keeps_real [d] 0 d mask
           ["input_ids"%string]).
  - reflexivity.
  - reflexivity.
  - discriminate.
  - repeat constructor. by exists ids.
  - repeat constructor.
    + exists 2, 1. split; [reflexivity|simpl; lia].
    + exists 1, 2. split; [reflexivity|simpl; lia].
Defined.

(** ** Example-level reconciliation: too few strings, all rows active *)

Lemma fill_strs_short (mask : list bool) :
  ∀ (k s : nat) (out strs : list string),
  s ≤ length strs < s + count_true mask →
  fill_strs (zip (seq k (length mask)) mask) s out strs = Raise IndexError.
Proof.
  induction mask as [|m mask IH]; intros k s out strs Hlen.
  - change (count_true []) with 0 in Hlen. lia.
  - rewrite count_true_cons in Hlen. simpl. destruct m.
    + destruct (strs !! s) as [x|] eqn:Hs; [|done].
      apply lookup_lt_Some in Hs. apply IH. lia.
    + apply IH. simpl in Hlen. lia.
Qed.

(** With a pad token id that is an int64 and the assertion satisfied, but
    fewer strings than active rows, the string loop runs off the end of
    [responses_str]: the call raises [IndexError]. *)
Theorem example_level_pad_too_few_strings (config : TensorConfig)
    (responses : tensor Z) (responses_str : list string)
    (active_mask : list bool) :
  (- 2 ^ 63 ≤ pad_token_id config < 2 ^ 63)%Z →
  count_true active_mask = nrows responses →
  length responses_str < nrows responses →
  _example_level_pad config responses responses_str active_mask
    = Raise IndexError.
Proof.
  intros Hpad Hcnt Hshort. unfold _example_level_pad.
  rewrite decide_True by done.
  rewrite full_ok by done. cbn [bind].
  destruct (masked_assign_spec
              (rows (filled (length active_mask) (ncols responses)
                       (pad_token_id config)))
              active_mask (rows responses)) as (rs & -> & _).
  { simpl. by rewrite length_replicate. }
  { done. }
  cbn [bind]. unfold enumerate.
  rewrite fill_strs_short; [done|]. lia.
Qed.

Lemma example_level_pad_too_few_strings_witness :
  _example_level_pad (Build_TensorConfig 0 8 8 8)
    (Tensor 2 [[11; 12]; [21; 22]]%Z) ["x"%string] [true; false; true]
    = Raise IndexError.
Proof.
  apply (example_level_pad_too_few_strings (Build_TensorConfig 0 8 8 8)
           (Tensor 2 [[11; 12]; [21; 22]]%Z) ["x"%string]
           [true; false; true]).
  - simpl. lia.
  - reflexivity.
  - unfold nrows. simpl. lia.
Defined.

Lemma count_true_all (mask : list bool) (p : nat) :
  Forall (λ b, b = true) mask → p ≤ length mask →
  count_true (take p mask) = p.
Proof.
  intros Hall. revert p.
  induction Hall as [|b mask -> _ IH]; intros p Hp.
  - simpl in Hp. by replace p with 0 by lia.
  - destruct p as [|p]; [done|].
    change (take (S p) (true :: mask)) with (true :: take p mask).
    rewrite count_true_cons, IH; simpl in *; lia.
Qed.

(** With a pad token id that is an int64: when every row is active the
    reconciliation is the identity, the tensor and the strings come back as
    they went in. *)
Theorem example_level_pad_all_active (config : TensorConfig)
    (responses : tensor Z) (responses_str : list string)
    (active_mask : list bool) :
  (- 2 ^ 63 ≤ pad_token_id config < 2 ^ 63)%Z →
  Forall (λ b, b = true) active_mask →
  length active_mask = nrows responses →
  length responses_str = nrows responses →
  _example_level_pad config responses responses_str active_mask
    = Ok (responses, responses_str).
Proof.
  intros Hpad Hall Hn Hstr.
  assert (Hcnt : count_true active_mask = nrows responses).
  { pose proof (count_true_all active_mask (length active_mask) Hall
                  (le_n _)) as Hc.
    rewrite take_ge in Hc by done. lia. }
  unfold _example_level_pad. rewrite decide_True by done.
  rewrite full_ok by done. cbn [bind].
  destruct (masked_assign_spec
              (rows (filled (length active_mask) (ncols responses)
                       (pad_token_id config)))
              active_mask (rows responses)) as (rs & -> & Hlrs & Hrows).
  { simpl. by rewrite length_replicate. }
  { done. }
  destruct (fill_strs_spec active_mask 0 0
              (replicate (length active_mask) EmptyString)
              responses_str) as (strs & Hstrs & Hlstrs & _ & Hpos).
  { lia. }
  cbn [bind]. unfold enumerate. rewrite Hstrs. cbn [bind].
  simpl in Hlrs. rewrite length_replicate in Hlrs.
  rewrite length_replicate in Hlstrs.
  assert (Hact : ∀ p, p < length active_mask → active_mask !! p = Some true).
  { intros p Hp. destruct (lookup_lt_is_Some_2 active_mask p Hp) as [b Hb].
    by rewrite (Forall_lookup_1 _ _ _ _ Hall Hb) in Hb. }
  unfold nrows in *. do 2 f_equal.
  - destruct responses as [n rows0]. cbn [ncols rows] in *. f_equal.
    apply list_eq. intros p.
    destruct (decide (p < length active_mask)) as [Hp|Hp].
    + rewrite (proj1 (Hrows p) (Hact p Hp)).
      by rewrite count_true_all by (done || lia).
    + rewrite !lookup_ge_None_2; [done|lia|lia].
  - apply list_eq. intros p.
    destruct (decide (p < length active_mask)) as [Hp|Hp].
    + assert (Hq : 0 + p < length (replicate (length active_mask) EmptyString))
        by (rewrite length_replicate; lia).
      rewrite (proj1 (Hpos p) (Hact p Hp) Hq : strs !! p = _).
      by rewrite count_true_all by (done || lia).
    + rewrite !lookup_ge_None_2; [done|lia|lia].
Qed.

Lemma example_level_pad_all_active_witness :
  _example_level_pad (Build_TensorConfig 0 8 8 8)
    (Tensor 2 [[11; 12]; [21; 22]]%Z) ["x"; "y"]%string [true; true]
    = Ok (Tensor 2 [[11; 12]; [21; 22]]%Z, ["x"; "y"]%string).
Proof.
  apply (example_level_pad_all_active (Build_TensorConfig 0 8 8 8)
           (Tensor 2 [[11; 12]; [21; 22]]%Z) ["x"; "y"]%string [true; true]).
  - simpl. lia.
  - repeat constructor.
  - reflexivity.
  - reflexivity.
Defined.

(** ** Turn-level reconciliation of tensors of one length *)

Lemma max_list_const (L : nat) (l : list nat) :
  l ≠ [] → Forall (λ x, x = L) l → max_list l = L.
Proof.
  intros Hne Hall. induction Hall as [|x l -> Hl IH]; [done|].
  simpl. destruct l as [|y l]; [simpl; lia|]. rewrite IH by done. lia.
Qed.

(** With a pad token id that is an int64: when all tensors have the same
    sequence length nothing is padded, the result is their rows one block
    after the other, whatever the pad side. *)
Theorem turn_level_equal_lengths (config : TensorConfig)
    (tensors : list ntensor) (pad_to_left : bool) (D : list nat) (L : nat) :
  (- 2 ^ 63 ≤ pad_token_id config < 2 ^ 63)%Z →
  tensors ≠ [] →
  Forall (λ t, rest t = D ∧ ncols (body t) = L) tensors →
  _turn_level_pad_and_concatenate config tensors pad_to_left
  = Ok (NTensor D (Tensor L (concat ((λ t, rows (body t)) <$> tensors)))).
Proof.
  intros Hpad Hne Hall. destruct tensors as [|t0 ts]; [done|].
  assert (Hmax : max_list ((λ t, ncols (body t)) <$> t0 :: ts) = L).
  { apply max_list_const; [done|].
    apply Forall_fmap. eapply Forall_impl; [exact Hall|]. by intros t [_ ?]. }
  rewrite (turn_level_closed config t0 ts pad_to_left D Hpad).
  - rewrite Hmax. do 4 f_equal.
    apply Forall_fmap_ext_1. eapply Forall_impl; [exact Hall|].
    intros t [_ HL]. unfold pad_block, block_col. rewrite HL.
    rewrite <- (list_fmap_id (rows (body t))) at 2.
    apply list_fmap_ext. intros _ row _.
    replace (L - L) with 0 by lia.
    replace (L - ((if pad_to_left then 0 else 0) + L)) with 0
      by (destruct pad_to_left; lia).
    destruct pad_to_left; simpl; by rewrite app_nil_r.
  - rewrite Hmax. eapply Forall_impl; [exact Hall|].
    intros t [? ->]. done.
Qed.

Lemma turn_level_equal_lengths_witness :
  _turn_level_pad_and_concatenate (Build_TensorConfig 0 8 8 8)
    [NTensor [] (Tensor 2 [[[1]; [2]]; [[3]; [4]]]%Z);
     NTensor [] (Tensor 2 [[[5]; [6]]]%Z)] true
  = Ok (NTensor [] (Tensor 2 [[[1]; [2]]; [[3]; [4]]; [[5]; [6]]]%Z)).
Proof.
  apply (turn_level_equal_lengths (Build_TensorConfig 0 8 8 8)
           [NTensor [] (Tensor 2 [[[1]; [2]]; [[3]; [4]]]%Z);
            NTensor [] (Tensor 2 [[[5]; [6]]]%Z)] true [] 2).
  - simpl. lia.
  - discriminate.
  - repeat constructor.
Defined.

(** ** Concatenation with re-padding: any number of tensors, failures *)

Lemma filter_concat {A} (P : A → Prop) `{∀ x, Decision (P x)}
    (ls : list (list A)) :
  filter P (concat ls) = concat (filter P <$> ls).
Proof.
  induction ls as [|l ls IH]; [done|].
  rewrite fmap_cons. simpl. by rewrite filter_app, IH.
Qed.

Lemma rth_rows {A} (ts : list (tensor A)) (r : nat) (rs : list (list A)) :
  Forall2 (λ t row, rows t !! r = Some row) ts rs →
  (λ t, default [] (rows t !! r)) <$> ts = rs.
Proof.
  induction 1 as [|t row ts rs Hrow _ IH]; [done|].
  rewrite fmap_cons, IH, Hrow. done.
Qed.

(** For any non-empty list of tensors with one row count, a row of the
    result is the pads of the r-th input rows as one block and their real
    tokens, tensor after tensor in list order, each tensor's in their own
    order: pads at the left when padding to the left, at the right
    otherwise. *)
Theorem concatenate_with_padding_rows (config : TensorConfig)
    (tensors : list (tensor Z)) (pad_to_left : bool) (n : nat) :
  tensors ≠ [] →
  Forall (λ t, nrows t = n) tensors →
  ∃ out,
    concatenate_with_padding config tensors pad_to_left = Ok out ∧
    nrows out = n ∧
    ncols out = sum_list (ncols <$> tensors) ∧
    ∀ r rs, Forall2 (λ t row, rows t !! r = Some row) tensors rs →
      rows out !! r =
        Some (let pads :=
                replicate
                  (length (filter (λ x, x = pad_token_id config) (concat rs)))
                  (pad_token_id config) in
              let reals :=
                concat (filter (λ x, x ≠ pad_token_id config) <$> rs) in
              if pad_to_left then pads ++ reals else reals ++ pads).
Proof.
  intros Hne Hn. destruct tensors as [|t0 ts]; [done|]. clear Hne.
  unfold concatenate_with_padding.
  rewrite cat_dim1_column_append.
  2:{ rewrite Forall_forall in Hn. intros t t' Ht Ht'.
      by rewrite (Hn t Ht), (Hn t' Ht'). }
  cbn [column_append bind]. rewrite convert_pad_structure_rows. cbn [bind].
  eexists. split; [done|]. cbn [fst ncols rows].
  assert (Hn0 : nrows t0 = n) by (by apply Forall_cons in Hn as [? _]).
  split; [unfold nrows at 1; cbn [rows];
          by rewrite !length_fmap, length_seq|].
  split; [done|].
  intros r rs Hrs.
  assert (Hr : r < nrows t0).
  { inversion Hrs as [|? row ? ? Hrow _]; subst.
    by apply lookup_lt_Some in Hrow. }
  assert (Hjoin :
    ((λ i, concat ((λ t : tensor Z, default [] (rows t !! i)) <$> t0 :: ts))
       <$> seq 0 (nrows t0)) !! r = Some (concat rs)).
  { rewrite list_lookup_fmap, lookup_seq_lt by done.
    change (Some (concat ((λ t : tensor Z, default [] (rows t !! r))
                            <$> t0 :: ts)) = Some (concat rs)).
    by rewrite (rth_rows (t0 :: ts) r rs Hrs). }
  rewrite list_lookup_fmap, Hjoin.
  change (Some (stable_group (pad_token_id config) pad_to_left (concat rs))
          = Some (if pad_to_left
                  then replicate
                         (length (filter (λ x, x = pad_token_id config)
                                    (concat rs)))
                         (pad_token_id config)
                       ++ concat (filter (λ x, x ≠ pad_token_id config)
                                    <$> rs)
                  else concat (filter (λ x, x ≠ pad_token_id config) <$> rs)
                       ++ replicate
                            (length (filter (λ x, x = pad_token_id config)
                                       (concat rs)))
                            (pad_token_id config))).
  f_equal. rewrite <- filter_concat.
  destruct pad_to_left.
  - by rewrite stable_group_left, <- filter_pad_is_replicate.
  - by rewrite stable_group_right, <- filter_pad_is_replicate.
Qed.

Lemma concatenate_with_padding_rows_witness :
  ∃ out,
    concatenate_with_padding (Build_TensorConfig 0 8 8 8)
      [Tensor 2 [[0; 7]%Z]; Tensor 2 [[5; 0]%Z]; Tensor 1 [[6]%Z]] true
      = Ok out ∧
    nrows out = 1 ∧ ncols out = 5 ∧
    rows out !! 0 = Some [0; 0; 7; 5; 6]%Z.
Proof.
  destruct (concatenate_with_padding_rows (Build_TensorConfig 0 8 8 8)
      [Tensor 2 [[0; 7]%Z]; Tensor 2 [[5; 0]%Z]; Tensor 1 [[6]%Z]] true 1)
    as (out & Hrun & Hn & Hc & Hrows).
  - discriminate.
  - repeat constructor.
  - exists out. split; [exact Hrun|]. split; [exact Hn|]. split; [exact Hc|].
    apply (Hrows 0 [[0; 7]; [5; 0]; [6]]%Z). repeat constructor.
Defined.

Lemma cat_fold_raise {A} (ts : list (tensor A)) (e : exn) :
  foldl (λ acc t, bind acc (λ a,
           if decide (nrows a = nrows t) then Ok (hcat a t)
           else Raise RuntimeError)) (Raise e) ts
  = Raise e.
Proof. induction ts as [|t ts IH]; [done|]. exact IH. Qed.

Lemma cat_fold_mismatch {A} (ts : list (tensor A)) :
  ∀ acc : tensor A,
  Exists (λ t, nrows t ≠ nrows acc) ts →
  foldl (λ acc t, bind acc (λ a,
           if decide (nrows a = nrows t) then Ok (hcat a t)
           else Raise RuntimeError)) (Ok acc) ts
  = Raise RuntimeError.
Proof.
  induction ts as [|t ts IH]; intros acc Hex.
  - by apply Exists_nil in Hex.
  - cbn [foldl bind]. destruct (decide (nrows acc = nrows t)) as [Heq|Hne].
    + apply IH. rewrite nrows_hcat by done.
      apply Exists_cons in Hex as [Hex|Hex]; [congruence|done].
    + apply cat_fold_raise.
Qed.

(** [concatenate_with_padding] raises on an empty list, and whenever some
    tensor does not have the row count of the first one. *)
Theorem concatenate_with_padding_raises (config : TensorConfig)
    (tensors : list (tensor Z)) (pad_to_left : bool) :
  (tensors = [] ∨
   ∃ t0 ts, tensors = t0 :: ts ∧ Exists (λ t, nrows t ≠ nrows t0) ts) →
  concatenate_with_padding config tensors pad_to_left = Raise RuntimeError.
Proof.
  intros [->|(t0 & ts & -> & Hex)]; [done|].
  unfold concatenate_with_padding, cat_dim1.
  by rewrite cat_fold_mismatch.
Qed.

Lemma concatenate_with_padding_raises_witness :
  concatenate_with_padding (Build_TensorConfig 0 8 8 8)
    [Tensor 2 [[0; 7]%Z]; Tensor 2 [[5; 0]; [6; 0]]%Z] true
  = Raise RuntimeError.
Proof.
  apply (concatenate_with_padding_raises (Build_TensorConfig 0 8 8 8)
           [Tensor 2 [[0; 7]%Z]; Tensor 2 [[5; 0]; [6; 0]]%Z] true).
  right. eexists _, _. split; [reflexivity|].
  apply Exists_cons_hd. unfold nrows. simpl. lia.
Defined.

(** ** Example-level reconciliation: no active row, surplus strings *)

Lemma count_true_none (mask : list bool) :
  Forall (λ b, b = false) mask → count_true mask = 0.
Proof.
  induction 1 as [|b mask -> _ IH]; [done|].
  by rewrite count_true_cons, IH.
Qed.

(** With a pad token id that is an int64: a batch with no active row (and
    so an active tensor of no rows) comes back as a tensor of pad tokens of
    the whole batch size and a list of empty strings; the strings passed in
    are not looked at. *)
Theorem example_level_pad_none_active (config : TensorConfig)
    (responses : tensor Z) (responses_str : list string)
    (active_mask : list bool) :
  (- 2 ^ 63 ≤ pad_token_id config < 2 ^ 63)%Z →
  Forall (λ b, b = false) active_mask →
  nrows responses = 0 →
  _example_level_pad config responses responses_str active_mask
    = Ok (filled (length active_mask) (ncols responses)
            (pad_token_id config),
          replicate (length active_mask) EmptyString).
Proof.
  intros Hpad Hall Hn.
  pose proof (count_true_none active_mask Hall) as Hcnt.
  unfold _example_level_pad. rewrite decide_True by lia.
  rewrite full_ok by done. cbn [bind].
  destruct (masked_assign_spec
              (rows (filled (length active_mask) (ncols responses)
                       (pad_token_id config)))
              active_mask (rows responses)) as (rs & -> & Hlrs & Hrows).
  { simpl. by rewrite length_replicate. }
  { unfold nrows in Hn. lia. }
  destruct (fill_strs_spec active_mask 0 0
              (replicate (length active_mask) EmptyString)
              responses_str) as (strs & Hstrs & Hlstrs & _ & Hpos).
  { lia. }
  cbn [bind]. unfold enumerate. rewrite Hstrs. cbn [bind].
  assert (Hact : ∀ p, p < length active_mask → active_mask !! p = Some false).
  { intros p Hp. destruct (lookup_lt_is_Some_2 active_mask p Hp) as [b Hb].
    by rewrite (Forall_lookup_1 _ _ _ _ Hall Hb) in Hb. }
  simpl in Hlrs. rewrite length_replicate in Hlrs.
  rewrite length_replicate in Hlstrs.
  unfold filled. do 3 f_equal.
  - apply list_eq. intros p.
    destruct (decide (p < length active_mask)) as [Hp|Hp].
    + by rewrite (proj2 (Hrows p) (Hact p Hp)).
    + rewrite !lookup_ge_None_2; [done| |lia].
      rewrite length_replicate. lia.
  - apply list_eq. intros p.
    destruct (decide (p < length active_mask)) as [Hp|Hp].
    + exact (proj2 (Hpos p) (Hact p Hp)).
    + rewrite !lookup_ge_None_2; [done| |lia].
      rewrite length_replicate. lia.
Qed.

Lemma example_level_pad_none_active_witness :
  _example_level_pad (Build_TensorConfig 0 8 8 8) (Tensor 3 [])
    ["unused"%string] [false; false]
  = Ok (filled 2 3 0%Z, replicate 2 EmptyString).
Proof.
  apply (example_level_pad_none_active (Build_TensorConfig 0 8 8 8)
           (Tensor 3 []) ["unused"%string] [false; false]).
  - simpl. lia.
  - repeat constructor.
  - reflexivity.
Defined.

(** With a pad token id that is an int64: strings beyond the number of
    active rows are never read, the result is the one obtained from the
    first [nrows responses] strings alone. *)
Theorem example_level_pad_surplus_strings (config : TensorConfig)
    (responses : tensor Z) (responses_str : list string)
    (active_mask : list bool) :
  (- 2 ^ 63 ≤ pad_token_id config < 2 ^ 63)%Z →
  count_true active_mask = nrows responses →
  nrows responses ≤ length responses_str →
  ∃ out strs,
    _example_level_pad config responses responses_str active_mask
      = Ok (out, strs) ∧
    _example_level_pad config responses
      (take (nrows responses) responses_str) active_mask
      = Ok (out, strs).
Proof.
  intros Hpad Hcnt Hlen.
  destruct (masked_assign_spec
              (rows (filled (length active_mask) (ncols responses)
                       (pad_token_id config)))
              active_mask (rows responses)) as (rs & Hrs & _).
  { simpl. by rewrite length_replicate. }
  { done. }
  destruct (fill_strs_spec active_mask 0 0
              (replicate (length active_mask) EmptyString)
              responses_str) as (strs & Hstrs & Hlstrs & _ & Hpos).
  { lia. }
  destruct (fill_strs_spec active_mask 0 0
              (replicate (length active_mask) EmptyString)
              (take (nrows responses) responses_str))
    as (strs' & Hstrs' & Hlstrs' & _ & Hpos').
  { rewrite length_take. lia. }
  assert (Hsame : strs' = strs).
  { rewrite length_replicate in Hlstrs, Hlstrs'.
    apply list_eq. intros p.
    destruct (active_mask !! p) as [[]|] eqn:Hp.
    - pose proof (lookup_lt_Some _ _ _ Hp) as Hpn.
      pose proof (count_true_take_lt _ _ Hp) as Hlt.
      assert (Hq : 0 + p < length (replicate (length active_mask) EmptyString))
        by (rewrite length_replicate; lia).
      rewrite (proj1 (Hpos p) Hp Hq : strs !! p = _).
      rewrite (proj1 (Hpos' p) Hp Hq : strs' !! p = _).
      simpl. rewrite lookup_take_lt by lia. done.
    - rewrite (proj2 (Hpos p) Hp : strs !! p = _).
      by rewrite (proj2 (Hpos' p) Hp : strs' !! p = _).
    - apply lookup_ge_None_1 in Hp.
      rewrite !lookup_ge_None_2; [done|lia|lia]. }
  subst strs'.
  exists (Tensor (ncols responses) rs), strs.
  unfold _example_level_pad, enumerate.
  destruct (decide (count_true active_mask = nrows responses)); [|done].
  rewrite full_ok by done. cbn [bind].
  cbv zeta. rewrite Hrs. cbn [bind]. by rewrite Hstrs, Hstrs'.
Qed.

Lemma example_level_pad_surplus_strings_witness :
  ∃ out strs,
    _example_level_pad (Build_TensorConfig 0 8 8 8)
      (Tensor 2 [[11; 12]%Z]) ["x"; "y"; "z"]%string [false; true]
      = Ok (out, strs) ∧
    _example_level_pad (Build_TensorConfig 0 8 8 8)
      (Tensor 2 [[11; 12]%Z])
      (take (nrows (Tensor 2 [[11; 12]%Z])) ["x"; "y"; "z"]%string)
      [false; true]
      = Ok (out, strs).
Proof.
  apply (example_level_pad_surplus_strings (Build_TensorConfig 0 8 8 8)
           (Tensor 2 [[11; 12]%Z]) ["x"; "y"; "z"]%string [false; true]).
  - simpl. lia.
  - reflexivity.
  - unfold nrows. simpl. lia.
Defined.
